(** * emed-mailer: the change-detection-and-dispatch pipeline

    A shallow embedding of the emed-mailer service: the Collector that
    reads appointment changes past an in-memory watermark, the Mailer that
    queues notification messages for a single background worker, the Job
    that ties both together once per scheduler tick, and the [main]
    function of [src/unnamed/part_000] that wires them up and shuts them
    down. *)

From Stdlib Require Import List Arith Lia Bool Ascii String ZArith Sorted Permutation.
Import ListNotations.
Open Scope list_scope.

(* ------------------------------------------------------------------ *)
(** ** Collector (package pkg/collector) *)

Module Collector.

(** Kind of an appointment change. *)
Inductive ChangeKind := Booked | Cancelled.

(** A row of the appointments store: id, raw kind code, change
    timestamp/sequence and display field. *)
Record Row := mkRow {
  row_id : nat;
  row_kind : nat;
  row_ts : nat;
  row_display : string
}.

(** AppointmentChange: immutable once read from the store. *)
Record AppointmentChange := mkChange {
  ch_id : nat;
  ch_kind : ChangeKind;
  ch_ts : nat;
  ch_display : string
}.

Inductive CollectorError := ConnectionLost | QueryFailed | MappingFailed.

Inductive result (A E : Type) := Ok (a : A) | Err (e : E).
Arguments Ok {A E} a.
Arguments Err {A E} e.

(** What the database connection does during one call: nothing goes
    wrong, the query itself fails, or the connection is lost after [k]
    rows have been read. *)
Inductive Fault := NoFault | QueryFault | LostAfter (k : nat).

(** The Collector owns the database (the store it reads) and the
    watermark. *)
Record Collector := mkCollector {
  db : list Row;
  watermark : nat
}.

(** Modelled from the spec: the ordering key of the query (pkg/collector
    is not in the repository's files): ascending change timestamp, ties
    broken by the row id. *)
Definition row_leb (a b : Row) : bool :=
  (row_ts a <? row_ts b) || ((row_ts a =? row_ts b) && (row_id a <=? row_id b)).

Fixpoint insert_row (r : Row) (rs : list Row) : list Row :=
  match rs with
  | [] => [r]
  | r' :: rs' => if row_leb r r' then r :: rs else r' :: insert_row r rs'
  end.

Fixpoint sort_rows (rs : list Row) : list Row :=
  match rs with
  | [] => []
  | r :: rs' => insert_row r (sort_rows rs')
  end.

(** Modelled from the spec: the query of FetchChanges (pkg/collector is
    not in the repository's files): rows whose change timestamp is
    strictly greater than the watermark, ordered by (timestamp, id). *)
Definition query (store : list Row) (wm : nat) : list Row :=
  sort_rows (filter (fun r => wm <? row_ts r) store).

(** Modelled from the spec: mapping one row to an AppointmentChange
    (pkg/collector is not in the repository's files); an unknown kind
    code is a MappingFailed error. *)
Definition map_row (r : Row) : result AppointmentChange CollectorError :=
  match row_kind r with
  | 0 => Ok (mkChange (row_id r) Booked (row_ts r) (row_display r))
  | 1 => Ok (mkChange (row_id r) Cancelled (row_ts r) (row_display r))
  | _ => Err MappingFailed
  end.

(** Modelled from the spec: the rows.Next loop of FetchChanges
    (pkg/collector is not in the repository's files).  [lost] is the
    number of rows that can still be read before the connection drops. *)
Fixpoint read_rows (lost : option nat) (rows : list Row)
  : result (list AppointmentChange) CollectorError :=
  match rows with
  | [] => Ok []
  | r :: rs =>
      match lost with
      | Some 0 => Err ConnectionLost
      | _ =>
          match map_row r with
          | Err e => Err e
          | Ok c =>
              match read_rows (option_map pred lost) rs with
              | Err e => Err e
              | Ok cs => Ok (c :: cs)
              end
          end
      end
  end.

(** The watermark after a batch: the largest change timestamp seen. *)
Definition advance (wm : nat) (batch : list AppointmentChange) : nat :=
  fold_left (fun m c => Nat.max m (ch_ts c)) batch wm.

(** Modelled from the spec: Collector.FetchChanges (pkg/collector is not
    in the repository's files).  The watermark moves only once the whole
    batch has been materialised; on any error the collector is returned
    unchanged. *)
Definition FetchChanges (f : Fault) (c : Collector)
  : result (list AppointmentChange) CollectorError * Collector :=
  match f with
  | QueryFault => (Err QueryFailed, c)
  | _ =>
      let lost := match f with LostAfter k => Some k | _ => None end in
      match read_rows lost (query (db c) (watermark c)) with
      | Err e => (Err e, c)
      | Ok batch => (Ok batch, mkCollector (db c) (advance (watermark c) batch))
      end
  end.

(** A sequence of FetchChanges calls, with new rows appearing in the
    store between them. *)
Inductive CAct := CFetch (f : Fault) | CAppend (rows : list Row).

(** Runs the calls and collects the batches of the successful ones. *)
Fixpoint collector_run (acts : list CAct) (c : Collector)
  : Collector * list (list AppointmentChange) :=
  match acts with
  | [] => (c, [])
  | CFetch f :: acts' =>
      match FetchChanges f c with
      | (Ok b, c') => let '(c'', bs) := collector_run acts' c' in (c'', b :: bs)
      | (Err _, c') => collector_run acts' c'
      end
  | CAppend rows :: acts' => collector_run acts' (mkCollector (db c ++ rows) (watermark c))
  end.

(** A monotonically advancing change source: every row that appears lies
    past the starting watermark [wm0] and strictly after every row
    already in the store. *)
Fixpoint advancing_source (wm0 : nat) (store : list Row) (acts : list CAct) : Prop :=
  match acts with
  | [] => True
  | CFetch _ :: acts' => advancing_source wm0 store acts'
  | CAppend rows :: acts' =>
      Forall (fun r => wm0 < row_ts r /\ Forall (fun s => row_ts s < row_ts r) store) rows
      /\ advancing_source wm0 (store ++ rows) acts'
  end.

(** The scenario of the spec: watermark T0 = 0, a booking at T1 = 1 and
    a cancellation at T2 = 2. *)
Definition scenario : Collector :=
  mkCollector [mkRow 1 0 1 "patient A"%string; mkRow 2 1 2 "patient B"%string] 0.

(** Calls on the scenario: a successful call, a new booking at 5, a call
    that loses the connection before the first row, a successful call. *)
Definition scenario_calls : list CAct :=
  [CFetch NoFault; CAppend [mkRow 3 0 5 "patient C"%string]; CFetch (LostAfter 0); CFetch NoFault].

End Collector.

(* ------------------------------------------------------------------ *)
(** ** Mailer data (package internal/mailer) *)

Module Mailer.
Import Collector.

(** [mailer.Config], src/internal/mailer/config.go. *)
Record Config := mkConfig {
  Server : string;
  Port : Z;
  User : string;
  Password : string;
  From : string;
  To : string;
  Subject : string
}.

(** Modelled from the spec: NotificationMessage (pkg/mailer is not in the
    repository's files): sender, recipient, subject and the changes the
    body is rendered from. *)
Record NotificationMessage := mkMessage {
  msg_from : string;
  msg_to : string;
  msg_subject : string;
  msg_body : list AppointmentChange
}.

Inductive MailerError := NotRunning | AuthFailed | ConnectFailed | SendFailed.

(** MailerState: Stopped -> Running -> Draining -> Stopped. *)
Inductive MailerState := Stopped | Running | Draining.

(** Modelled from the spec: the Mailer (pkg/mailer is not in the
    repository's files): its configuration, lifecycle state, FIFO queue,
    and whether the worker has observed the stop signal. *)
Record Mailer := mkMailer {
  mcfg : Config;
  mstate : MailerState;
  mqueue : list NotificationMessage;
  stop_seen : bool
}.

Definition change_eq_dec (a b : AppointmentChange) : {a = b} + {a <> b}.
Proof. decide equality; first [apply string_dec | apply Nat.eq_dec | decide equality]. Defined.

Definition msg_eq_dec (a b : NotificationMessage) : {a = b} + {a <> b}.
Proof. decide equality; first [apply string_dec | apply (list_eq_dec change_eq_dec)]. Defined.

End Mailer.

(* ------------------------------------------------------------------ *)
(** ** Observable events of the process *)

Module Events.
Import Collector Mailer.

Inductive Event :=
  (* main, src/unnamed/part_000 *)
  | EvPrintf (header cause : string)
  | EvShowAppHelp
  | EvOpenLogFile
  | EvSetLogger
  | EvSetGlobalLevel
  | EvMakeStop
  | EvOpenSQL
  | EvLogFatal
  | EvNewCollector
  | EvNewMailer
  | EvMailerRun
  | EvMailerFatal
  | EvNewJob
  | EvCronNew
  | EvCronAddFunc
  | EvCronStart
  | EvSignalNotify
  | EvSignalReceived
  | EvCronStop
  | EvCloseSigs
  | EvCloseStop
  | EvDbClose
  | EvLogFileClose
  | EvExit (code : nat)
  (* the scheduler launches a Job.Run goroutine *)
  | EvCronFire
  (* job: Job.Run starts, then its logged errors and its Enqueue call *)
  | EvJobTick
  | EvFetchFailed (e : CollectorError)
  | EvEnqueueCall (m : NotificationMessage)
  | EvEnqueueFailed (e : MailerError)
  (* mailer: queue push, transport attempt, logged failure, dropped at
     the end of the grace period, worker exit *)
  | EvQueued (m : NotificationMessage)
  | EvSmtpSend (m : NotificationMessage)
  | EvSendFailed (m : NotificationMessage)
  | EvUndelivered (m : NotificationMessage)
  | EvWorkerExit.

(** Events performed by the main goroutine. *)
Definition is_main (e : Event) : bool :=
  match e with
  | EvCronFire | EvJobTick | EvFetchFailed _ | EvEnqueueCall _ | EvEnqueueFailed _
  | EvQueued _ | EvSmtpSend _ | EvSendFailed _ | EvUndelivered _
  | EvWorkerExit => false
  | _ => true
  end.

End Events.

(* ------------------------------------------------------------------ *)
(** ** Mailer operations *)

Module MailerImpl.
Import Collector Mailer Events.

(** Modelled from the spec: mailer.New (pkg/mailer is not in the
    repository's files). *)
Definition New (cfg : Config) : Mailer := mkMailer cfg Stopped [] false.

(** Modelled from the spec: Mailer.Run(stop) starts the background worker
    (pkg/mailer is not in the repository's files).  Its start-up check of
    the SMTP server is [run_startup]. *)
Definition Run (t : Mailer) : Mailer :=
  match mstate t, stop_seen t with
  | Stopped, false => mkMailer (mcfg t) Running (mqueue t) false
  | _, _ => t
  end.

(** Modelled from the spec: the start-up of Mailer.Run(stop) (pkg/mailer
    is not in the repository's files).  An SMTP server that cannot be
    reached at process start is fatal and aborts the start-up; [main]
    ignores what m.Run returns, so the abort happens inside Run: the
    error is logged and the process exits (with status 1, as log.Fatal
    does; the spec gives no status). *)
Definition run_startup (reachable : bool) : option MailerError :=
  if reachable then None else Some ConnectFailed.

(** Modelled from the spec: Mailer.Enqueue (pkg/mailer is not in the
    repository's files): a push onto the queue while Running, NotRunning
    otherwise. *)
Definition Enqueue (m : NotificationMessage) (t : Mailer)
  : option MailerError * Mailer * list Event :=
  match mstate t with
  | Running => (None, mkMailer (mcfg t) Running (mqueue t ++ [m]) (stop_seen t), [EvQueued m])
  | _ => (Some NotRunning, t, [])
  end.

(** One move of the background worker: a send attempt whose transport
    outcome is [ok], noticing the closed stop channel, or the end of the
    shutdown grace period. *)
Inductive WorkerAct := WSend (ok : bool) | WObserveStop | WGraceExpired.

(** Modelled from the spec: the worker loop of Mailer.Run (pkg/mailer is
    not in the repository's files).  [closed] tells whether the stop
    channel has been closed.  A move that is not enabled leaves the
    mailer as it is. *)
Definition worker_step (closed : bool) (a : WorkerAct) (t : Mailer)
  : Mailer * list Event :=
  match a, mstate t, mqueue t with
  | WObserveStop, Running, q =>
      if closed then (mkMailer (mcfg t) Draining q true, []) else (t, [])
  | WSend ok, Running, m :: q =>
      (mkMailer (mcfg t) Running q (stop_seen t),
       EvSmtpSend m :: (if ok then [] else [EvSendFailed m]))
  | WSend ok, Draining, m :: q =>
      (mkMailer (mcfg t) Draining q (stop_seen t),
       EvSmtpSend m :: (if ok then [] else [EvSendFailed m]))
  | WSend _, Draining, [] =>
      (mkMailer (mcfg t) Stopped [] (stop_seen t), [EvWorkerExit])
  | WGraceExpired, Draining, q =>
      (mkMailer (mcfg t) Stopped [] (stop_seen t),
       map EvUndelivered q ++ [EvWorkerExit])
  | _, _, _ => (t, [])
  end.

(** The mailer together with its stop channel, driven by the producer
    (Enqueue), the owner of the stop channel and the worker, in any
    interleaving. *)
Inductive MAct :=
  | MRun
  | MEnqueue (m : NotificationMessage)
  | MCloseStop
  | MWorker (w : WorkerAct).

Definition mailer_act (a : MAct) (s : Mailer * bool) : (Mailer * bool) * list Event :=
  let (t, closed) := s in
  match a with
  | MRun => ((Run t, closed), [])
  | MEnqueue m => let '(_, t', evs) := Enqueue m t in ((t', closed), evs)
  | MCloseStop => ((t, true), [])
  | MWorker w => let (t', evs) := worker_step closed w t in ((t', closed), evs)
  end.

Fixpoint mailer_run (acts : list MAct) (s : Mailer * bool) : (Mailer * bool) * list Event :=
  match acts with
  | [] => (s, [])
  | a :: acts' =>
      let (s1, evs1) := mailer_act a s in
      let (s2, evs2) := mailer_run acts' s1 in
      (s2, evs1 ++ evs2)
  end.

(** Messages accepted by Enqueue, and messages handed to the transport,
    in the order of the trace. *)
Definition queued (evs : list Event) : list NotificationMessage :=
  flat_map (fun e => match e with EvQueued m => [m] | _ => [] end) evs.

Definition attempts (evs : list Event) : list NotificationMessage :=
  flat_map (fun e => match e with EvSmtpSend m => [m] | _ => [] end) evs.

Definition undelivered (evs : list Event) : list NotificationMessage :=
  flat_map (fun e => match e with EvUndelivered m => [m] | _ => [] end) evs.

(** A configuration and a message used in the examples below. *)
Definition sample_config : Config :=
  mkConfig "smtp.example.org" 25 "mailer" "secret" "mailer@example.org"
    "office@example.org" "Appointment changes".

Definition sample_message : NotificationMessage :=
  mkMessage "mailer@example.org" "office@example.org" "Appointment changes" [].

End MailerImpl.

(* ------------------------------------------------------------------ *)
(** ** Job (package pkg/job) *)

Module Job.
Import Collector Mailer Events.

(** Modelled from the spec: rendering a NotificationMessage from a batch
    (pkg/job is not in the repository's files). *)
Definition render (cfg : Config) (batch : list AppointmentChange) : NotificationMessage :=
  mkMessage (From cfg) (To cfg) (Subject cfg) batch.

(** Modelled from the spec: Job.Run (pkg/job is not in the repository's
    files).  Fetch; on error log and return; on an empty batch return;
    otherwise render one message and Enqueue it, logging and dropping it
    when Enqueue fails. *)
Definition Run (f : Fault) (c : Collector) (t : Mailer) : Collector * Mailer * list Event :=
  match FetchChanges f c with
  | (Err e, c') => (c', t, [EvFetchFailed e])
  | (Ok [], c') => (c', t, [])
  | (Ok batch, c') =>
      let msg := render (mcfg t) batch in
      match MailerImpl.Enqueue msg t with
      | (None, t', evs) => (c', t', EvEnqueueCall msg :: evs)
      | (Some e, t', evs) => (c', t', EvEnqueueCall msg :: evs ++ [EvEnqueueFailed e])
      end
  end.

(** The two parts of Job.Run as its goroutine performs them, with other
    goroutines running in between: the fetch, which ends Job.Run on an
    error or an empty batch, and the Enqueue call of the rendered
    message. *)
Definition Run_fetch (f : Fault) (c : Collector)
  : Collector * option (list AppointmentChange) * list Event :=
  match FetchChanges f c with
  | (Err e, c') => (c', None, [EvFetchFailed e])
  | (Ok [], c') => (c', None, [])
  | (Ok batch, c') => (c', Some batch, [])
  end.

Definition Run_enqueue (batch : list AppointmentChange) (t : Mailer) : Mailer * list Event :=
  let msg := render (mcfg t) batch in
  match MailerImpl.Enqueue msg t with
  | (None, t', evs) => (t', EvEnqueueCall msg :: evs)
  | (Some e, t', evs) => (t', EvEnqueueCall msg :: evs ++ [EvEnqueueFailed e])
  end.

(** The Enqueue calls of a trace. *)
Definition enqueue_calls (evs : list Event) : list NotificationMessage :=
  flat_map (fun e => match e with EvEnqueueCall m => [m] | _ => [] end) evs.

End Job.

(* ------------------------------------------------------------------ *)
(** ** main, src/unnamed/part_000 *)

Module Main.
Import Collector Mailer Events.

(** zerolog's levels, in its order: trace (-1) up to disabled (7). *)
Inductive Level :=
  | TraceLevel | DebugLevel | InfoLevel | WarnLevel | ErrorLevel
  | FatalLevel | PanicLevel | NoLevel | Disabled.

Definition level_num (l : Level) : Z :=
  match l with
  | TraceLevel => -1 | DebugLevel => 0 | InfoLevel => 1 | WarnLevel => 2
  | ErrorLevel => 3 | FatalLevel => 4 | PanicLevel => 5 | NoLevel => 6
  | Disabled => 7
  end%Z.

(** zerolog's [Logger.should] for a fatal entry, [lvl < l.level ||
    lvl < GlobalLevel()] refusing it: [log.Logger]'s own level is the one
    [zerolog.New] gives (it lets every entry through), so the global
    level set by zerolog.SetGlobalLevel decides.  When the entry is
    refused, [log.Fatal()] returns a disabled event whose [Msgf] does
    nothing, its os.Exit(1) hook included. *)
Definition fatal_enabled (global : Level) : bool :=
  negb (Z.ltb (level_num FatalLevel) (level_num global)).

(** The outcomes of the calls [main] makes that can fail: config.Load,
    os.OpenFile of the log file, zerolog.ParseLevel and collector.OpenSQL
    ([Some cause] when the call returns an error); the level
    zerolog.ParseLevel returns when it succeeds; whether the SMTP server
    can be reached when m.Run starts the mailer; and the mail section of
    the configuration. *)
Record Env := mkEnv {
  load_err : option string;
  open_log_err : option string;
  parse_level_err : option string;
  log_level : Level;
  open_sql_err : option string;
  smtp_reachable : bool;
  mail_config : Config
}.

(** The error the cli Action returns: [cli.Exit("", code)] or another
    error. *)
Inductive ActionErr := CliExit (code : nat) | PlainErr.

(** How a Go function body ends: it goes on, returns, or the process exits
    (os.Exit, which skips the deferred calls). *)
Inductive Ctl (A : Type) := Cont (a : A) | Return (r : option ActionErr) | OsExit (code : nat).
Arguments Cont {A} a.
Arguments Return {A} r.
Arguments OsExit {A} code.

(** The trace written so far and the deferred calls of the running
    function, most recent first. *)
Record GoSt := mkGoSt { gtrace : list Event; gdefers : list Event }.

Definition Go (A : Type) := GoSt -> Ctl A * GoSt.

Definition bind {A B} (m : Go A) (k : A -> Go B) : Go B := fun s =>
  match m s with
  | (Cont a, s') => k a s'
  | (Return r, s') => (Return r, s')
  | (OsExit c, s') => (OsExit c, s')
  end.

Notation "x <- m ;; k" := (bind m (fun x => k)) (at level 61, m at next level, right associativity).
Notation "m ;; k" := (bind m (fun _ => k)) (at level 61, right associativity).

Definition emit (e : Event) : Go unit := fun s =>
  (Cont tt, mkGoSt (gtrace s ++ [e]) (gdefers s)).

Definition defer (e : Event) : Go unit := fun s =>
  (Cont tt, mkGoSt (gtrace s) (e :: gdefers s)).

Definition return_ {A} (r : option ActionErr) : Go A := fun s => (Return r, s).

Definition pure {A} (a : A) : Go A := fun s => (Cont a, s).

Definition os_exit {A} (code : nat) : Go A := fun s =>
  (OsExit code, mkGoSt (gtrace s ++ [EvExit code]) (gdefers s)).

(** Calling a function: its deferred calls run, last deferred first, when
    it returns, and not when the process exits inside it. *)
Definition call (body : Go unit) : Go (option ActionErr) := fun s =>
  match body (mkGoSt (gtrace s) []) with
  | (Cont _, s') => (Cont None, mkGoSt (gtrace s' ++ gdefers s') (gdefers s))
  | (Return r, s') => (Cont r, mkGoSt (gtrace s' ++ gdefers s') (gdefers s))
  | (OsExit c, s') => (OsExit c, mkGoSt (gtrace s') (gdefers s))
  end.

Definition load_config_msg : string := "Could not load configuration file.".
Definition open_log_msg : string := "Could not open log file.".
Definition parse_level_msg : string := "Could not parse Log Level.".

(** m.Run(stop): the worker starts, and the start-up check of the
    mailer ([MailerImpl.run_startup]) ends the process when the SMTP
    server cannot be reached. *)
Definition mailer_run (reachable : bool) : Go unit :=
  emit EvMailerRun ;;
  match MailerImpl.run_startup reachable with
  | Some _ => emit EvMailerFatal ;; os_exit 1
  | None => pure tt
  end.

(** The cli Action of [main] (lines 54-147).  [<-sigs] is the event
    [EvSignalReceived]. *)
Definition Action (env : Env) : Go unit :=
  match load_err env with
  | Some e =>
      emit (EvPrintf load_config_msg e) ;; emit EvShowAppHelp ;;
      return_ (Some (CliExit 128))
  | None =>
  match open_log_err env with
  | Some e =>
      emit (EvPrintf open_log_msg e) ;; emit EvShowAppHelp ;;
      return_ (Some (CliExit 128))
  | None =>
      emit EvOpenLogFile ;; defer EvLogFileClose ;; emit EvSetLogger ;;
      match parse_level_err env with
      | Some e =>
          emit (EvPrintf parse_level_msg e) ;; emit EvShowAppHelp ;;
          return_ (Some (CliExit 128))
      | None =>
          emit EvSetGlobalLevel ;; emit EvMakeStop ;; emit EvOpenSQL ;;
          match open_sql_err env with
          | Some _ =>
              (* log.Fatal().Msgf(...): zerolog writes the entry and exits
                 with status 1 when the global level lets fatal entries
                 through; otherwise nothing happens and [return err]
                 follows *)
              (if fatal_enabled (log_level env) then emit EvLogFatal ;; os_exit 1
               else pure tt) ;;
              return_ (Some PlainErr)
          | None =>
              defer EvDbClose ;;
              emit EvNewCollector ;; emit EvNewMailer ;; mailer_run (smtp_reachable env) ;;
              emit EvNewJob ;; emit EvCronNew ;; emit EvCronAddFunc ;;
              emit EvCronStart ;; emit EvSignalNotify ;; emit EvSignalReceived ;;
              emit EvCronStop ;; emit EvCloseSigs ;; emit EvCloseStop ;;
              return_ None
          end
      end
  end
  end.

(** [main]: app.Run runs the Action; cli exits with the code of a
    [cli.Exit] error, [main] exits with 1 on any other error, and the
    process ends with status 0 when [main] returns. *)
Definition main_prog (env : Env) : Go unit :=
  r <- call (Action env) ;;
  match r with
  | Some (CliExit c) => os_exit c
  | Some PlainErr => os_exit 1
  | None => os_exit 0
  end.

Definition main (env : Env) : list Event :=
  gtrace (snd (main_prog env (mkGoSt [] []))).

(** A start-up where every call succeeds, and the events of [main] then. *)
Definition ok_env : Env := mkEnv None None None InfoLevel None true MailerImpl.sample_config.

Definition main_ok_trace : list Event :=
  [EvOpenLogFile; EvSetLogger; EvSetGlobalLevel; EvMakeStop; EvOpenSQL;
   EvNewCollector; EvNewMailer; EvMailerRun; EvNewJob; EvCronNew;
   EvCronAddFunc; EvCronStart; EvSignalNotify; EvSignalReceived;
   EvCronStop; EvCloseSigs; EvCloseStop; EvDbClose; EvLogFileClose; EvExit 0].

End Main.

(* ------------------------------------------------------------------ *)
(** ** The running process: main, the scheduler and the mailer worker *)

Module Process.
Import Collector Mailer Events MailerImpl.

(** A Job.Run goroutine the scheduler has launched: not started yet, or
    past its fetch and about to call Enqueue with the batch. *)
Inductive JobG := JobLaunched | JobFetched (batch : list AppointmentChange).

(** The events main has still to perform, the collector, the mailer,
    whether the scheduler is running, whether [stop] is closed, whether
    db.Close has run, and the launched Job.Run goroutines. *)
Record Proc := mkProc {
  p_main : list Event;
  p_coll : Collector;
  p_mail : Mailer;
  p_cron : bool;
  p_stop : bool;
  p_db_closed : bool;
  p_jobs : list JobG
}.

(** What each event of main does to the shared state. *)
Definition main_effect (cfg : Config) (e : Event) (p : Proc) : Proc :=
  match e with
  | EvNewMailer =>
      mkProc (p_main p) (p_coll p) (New cfg) (p_cron p) (p_stop p) (p_db_closed p) (p_jobs p)
  | EvMailerRun =>
      mkProc (p_main p) (p_coll p) (MailerImpl.Run (p_mail p)) (p_cron p) (p_stop p)
        (p_db_closed p) (p_jobs p)
  | EvCronStart =>
      mkProc (p_main p) (p_coll p) (p_mail p) true (p_stop p) (p_db_closed p) (p_jobs p)
  | EvCronStop =>
      mkProc (p_main p) (p_coll p) (p_mail p) false (p_stop p) (p_db_closed p) (p_jobs p)
  | EvCloseStop =>
      mkProc (p_main p) (p_coll p) (p_mail p) (p_cron p) true (p_db_closed p) (p_jobs p)
  | EvDbClose =>
      mkProc (p_main p) (p_coll p) (p_mail p) (p_cron p) (p_stop p) true (p_jobs p)
  | _ => p
  end.

Section Semantics.
Variable cfg : Config.

(** One step of the process while it is alive (main has not ended: its
    os.Exit ends every goroutine).  Main performs its next event; the
    scheduler of cron.v2 launches a Job.Run goroutine
    ([go c.runWithRecovery(e.Job)]) while it runs, that is from cj.Start
    until cj.Stop, which hands its stop value to the scheduler's loop over
    an unbuffered channel and so returns only once the loop has ended; a
    launched goroutine fetches, at any later time, and then calls
    Enqueue, nothing waiting for it; the worker moves; or new rows appear
    in the store.  After db.Close the fetch fails: database/sql refuses
    every new query of a closed [*sql.DB]. *)
Inductive pstep : Proc -> list Event -> Proc -> Prop :=
  | step_main p e rest :
      p_main p = e :: rest ->
      pstep p [e] (main_effect cfg e (mkProc rest (p_coll p) (p_mail p) (p_cron p) (p_stop p)
                                        (p_db_closed p) (p_jobs p)))
  | step_launch p :
      p_main p <> [] -> p_cron p = true ->
      pstep p [EvCronFire] (mkProc (p_main p) (p_coll p) (p_mail p) (p_cron p) (p_stop p)
                              (p_db_closed p) (p_jobs p ++ [JobLaunched]))
  | step_fetch p J1 J2 f c' ob evs :
      p_main p <> [] -> p_jobs p = J1 ++ JobLaunched :: J2 ->
      (p_db_closed p = true -> f = QueryFault) ->
      Job.Run_fetch f (p_coll p) = (c', ob, evs) ->
      pstep p (EvJobTick :: evs)
        (mkProc (p_main p) c' (p_mail p) (p_cron p) (p_stop p) (p_db_closed p)
           (J1 ++ match ob with Some b => [JobFetched b] | None => [] end ++ J2))
  | step_enqueue p J1 b J2 t' evs :
      p_main p <> [] -> p_jobs p = J1 ++ JobFetched b :: J2 ->
      Job.Run_enqueue b (p_mail p) = (t', evs) ->
      pstep p evs (mkProc (p_main p) (p_coll p) t' (p_cron p) (p_stop p) (p_db_closed p) (J1 ++ J2))
  | step_worker p w t' evs :
      p_main p <> [] ->
      worker_step (p_stop p) w (p_mail p) = (t', evs) ->
      pstep p evs (mkProc (p_main p) (p_coll p) t' (p_cron p) (p_stop p) (p_db_closed p) (p_jobs p))
  | step_store p rows :
      p_main p <> [] ->
      pstep p [] (mkProc (p_main p) (mkCollector (db (p_coll p) ++ rows) (watermark (p_coll p)))
                   (p_mail p) (p_cron p) (p_stop p) (p_db_closed p) (p_jobs p)).

Inductive exec : Proc -> list Event -> Proc -> Prop :=
  | exec_nil p : exec p [] p
  | exec_snoc p tr p1 evs p2 : exec p tr p1 -> pstep p1 evs p2 -> exec p (tr ++ evs) p2.

End Semantics.

Definition init (env : Main.Env) (c0 : Collector) : Proc :=
  mkProc (Main.main env) c0 (New (Main.mail_config env)) false false false [].

(** Starts of Job.Run, launches by the scheduler, and goroutines launched
    but not started. *)
Definition is_tick (e : Event) : bool := match e with EvJobTick => true | _ => false end.
Definition is_fire (e : Event) : bool := match e with EvCronFire => true | _ => false end.
Definition ticks (l : list Event) : nat := List.length (filter is_tick l).
Definition fires (l : list Event) : nat := List.length (filter is_fire l).
Definition launched (J : list JobG) : nat :=
  List.length (filter (fun j => match j with JobLaunched => true | _ => false end) J).

(** Events of neither main nor the scheduler, and no start of Job.Run. *)
Definition quiet (e : Event) : bool := negb (is_main e) && negb (is_tick e) && negb (is_fire e).

(** Whether the scheduler runs after the first [n] events of main's
    sequence: from cron.Start (the 12th) to cj.Stop (the 15th). *)
Definition cron_on (n : nat) : bool := (12 <=? n) && (n <=? 14).

(** One run of the process: main starts everything, the scheduler
    launches Job.Run, which queues one message of the scenario, then the
    signal arrives and main shuts down, the worker never being
    scheduled. *)
Definition sample_batch : list AppointmentChange :=
  [mkChange 1 Booked 1 "patient A"%string; mkChange 2 Cancelled 2 "patient B"%string].

Definition sample_run : list Event :=
  firstn 12 Main.main_ok_trace
  ++ [EvCronFire; EvJobTick; EvEnqueueCall (Job.render sample_config sample_batch);
      EvQueued (Job.render sample_config sample_batch)]
  ++ skipn 12 Main.main_ok_trace.

Definition sample_end : Proc :=
  mkProc [] (mkCollector (db scenario) 2)
    (mkMailer sample_config Running [Job.render sample_config sample_batch] false)
    false true true [].



End Process.

(* ------------------------------------------------------------------ *)
(** ** Go's path.Join and path.Clean *)

Module GoPath.

(** Go's [path] package as [main] uses it: [path.Join] and the
    [path.Clean] it ends with, on strings as byte sequences.  [Clean] is
    the lazybuf algorithm: [rout] is the output buffer written so far,
    most recent byte first, [dotdot] the length of its prefix that ".."
    may not remove.  Each round of the loop reads at least one byte, so a
    fuel of the path's length lets it run to the end. *)

Definition slash : ascii := "/"%char.
Definition dot : ascii := "."%char.

(** [out.w--] then [for out.w > dotdot && out.index(out.w) != '/' { out.w-- }]. *)
Fixpoint backtrack (dotdot : nat) (rout : list ascii) : list ascii :=
  match rout with
  | [] => []
  | c :: r =>
      if (dotdot <? List.length r) && negb (Ascii.eqb c slash) then backtrack dotdot r else r
  end.

(** [r+1 == n || path[r+1] == '/'], seen from the bytes after [path[r]]. *)
Definition sep_or_end (rest : list ascii) : bool :=
  match rest with [] => true | d :: _ => Ascii.eqb d slash end.

(** [path[r+1] == '.' && (r+2 == n || path[r+2] == '/')]. *)
Definition dot_sep_or_end (rest : list ascii) : bool :=
  match rest with [] => false | d :: rest' => Ascii.eqb d dot && sep_or_end rest' end.

(** The bytes up to the next slash, and the rest. *)
Fixpoint span_elem (l : list ascii) : list ascii * list ascii :=
  match l with
  | [] => ([], [])
  | c :: l' =>
      if Ascii.eqb c slash then ([], l)
      else let (name, rest) := span_elem l' in (c :: name, rest)
  end.

(** The loop [for r < n] of Clean with its four cases: an empty element,
    a "." element, a ".." element (back up to the last slash, or append
    ".." to a relative path that cannot back up), a real element (a slash
    if needed, then the element). *)
Fixpoint clean_loop (fuel : nat) (rooted : bool) (path : list ascii) (rout : list ascii)
    (dotdot : nat) : list ascii * nat :=
  match fuel with
  | O => (rout, dotdot)
  | S fuel =>
      match path with
      | [] => (rout, dotdot)
      | c :: rest =>
          if Ascii.eqb c slash then clean_loop fuel rooted rest rout dotdot
          else if Ascii.eqb c dot && sep_or_end rest then clean_loop fuel rooted rest rout dotdot
          else if Ascii.eqb c dot && dot_sep_or_end rest then
            if dotdot <? List.length rout then
              clean_loop fuel rooted (tl rest) (backtrack dotdot rout) dotdot
            else if negb rooted then
              let rout := dot :: dot :: (if 0 <? List.length rout then slash :: rout else rout) in
              clean_loop fuel rooted (tl rest) rout (List.length rout)
            else clean_loop fuel rooted (tl rest) rout dotdot
          else
            let rout :=
              if (rooted && negb (List.length rout =? 1)) || (negb rooted && negb (List.length rout =? 0))
              then slash :: rout else rout in
            let (name, rest) := span_elem path in
            clean_loop fuel rooted rest (rev name ++ rout) dotdot
      end
  end.

(** [path.Clean]: "" and an empty result become ".". *)
Definition Clean (path : string) : string :=
  match list_ascii_of_string path with
  | [] => "."
  | c :: rest =>
      let rooted := Ascii.eqb c slash in
      let out := fst (clean_loop (List.length (c :: rest)) rooted
                        (if rooted then rest else c :: rest)
                        (if rooted then [slash] else []) (if rooted then 1 else 0)) in
      match out with
      | [] => "."
      | _ => string_of_list_ascii (rev out)
      end
  end.

(** [path.Join]: the elements from the first non-empty one, joined with
    slashes and cleaned; "" when all are empty. *)
Fixpoint Join (elem : list string) : string :=
  match elem with
  | [] => ""
  | e :: rest => if String.eqb e "" then Join rest else Clean (String.concat "/" elem)
  end.

(** The log file [main] opens (part_000, line 65):
    [path.Join(config.General.Root, "emed-mailer.log")]. *)
Definition log_file_name : string := "emed-mailer.log".

Definition log_file_path (root : string) : string := Join [root; log_file_name].

(** Vocabulary for the shape of a cleaned path: the elements joined by
    slashes, with a leading slash for a rooted path. *)
Fixpoint join_elems (E : list (list ascii)) : list ascii :=
  match E with
  | [] => []
  | [e] => e
  | e :: E' => e ++ slash :: join_elems E'
  end.

Definition render (rooted : bool) (E : list (list ascii)) : list ascii :=
  if rooted then slash :: join_elems E else join_elems E.

(** An element that is not empty, holds no slash and is neither "." nor "..". *)
Definition is_plain_elem (e : list ascii) : bool :=
  match e with
  | [] => false
  | [c] => negb (Ascii.eqb c slash) && negb (Ascii.eqb c dot)
  | [c; d] => negb (Ascii.eqb c slash) && negb (Ascii.eqb d slash)
              && negb (Ascii.eqb c dot && Ascii.eqb d dot)
  | _ => forallb (fun c => negb (Ascii.eqb c slash)) e
  end.

Definition starts_with_slash (p : string) : bool :=
  match list_ascii_of_string p with c :: _ => Ascii.eqb c slash | [] => false end.

End GoPath.

(* ================================================================== *)
(** * Proofs *)

(* ------------------------------------------------------------------ *)
(** ** Collector *)

Module CollectorFacts.
Import Collector.

(** The (timestamp, id) order of the query, as a relation. *)
Definition row_le (a b : Row) : Prop := row_leb a b = true.

Lemma row_leb_total a b : row_leb a b = false -> row_leb b a = true.
Proof.
  unfold row_leb.
  destruct (Nat.ltb_spec (row_ts a) (row_ts b)),
           (Nat.ltb_spec (row_ts b) (row_ts a)),
           (Nat.eqb_spec (row_ts a) (row_ts b)),
           (Nat.eqb_spec (row_ts b) (row_ts a)),
           (Nat.leb_spec (row_id a) (row_id b)),
           (Nat.leb_spec (row_id b) (row_id a)); simpl; intros; try reflexivity;
    try discriminate; lia.
Qed.

Lemma insert_row_perm r l : Permutation (r :: l) (insert_row r l).
Proof.
  induction l as [|a l IH]; simpl; [reflexivity|].
  destruct (row_leb r a); [reflexivity|].
  rewrite perm_swap. constructor. exact IH.
Qed.

Lemma insert_row_sorted r l : Sorted row_le l -> Sorted row_le (insert_row r l).
Proof.
  induction 1 as [|a l Hs IH Hhd]; simpl.
  - repeat constructor.
  - destruct (row_leb r a) eqn:E.
    + constructor; [constructor; assumption | constructor; exact E].
    + constructor; [exact IH|].
      destruct l as [|b l']; simpl.
      * constructor. apply row_leb_total. exact E.
      * inversion Hhd; subst.
        destruct (row_leb r b); constructor; try assumption.
        apply row_leb_total. exact E.
Qed.

Lemma sort_rows_perm l : Permutation l (sort_rows l).
Proof.
  induction l as [|a l IH]; simpl; [reflexivity|].
  rewrite <- insert_row_perm. constructor. exact IH.
Qed.

Lemma sort_rows_sorted l : Sorted row_le (sort_rows l).
Proof.
  induction l as [|a l IH]; simpl; [constructor|].
  apply insert_row_sorted. exact IH.
Qed.

Lemma map_row_ts r ch : map_row r = Ok ch -> ch_ts ch = row_ts r.
Proof.
  unfold map_row. destruct (row_kind r) as [|[|k]]; intro H; inversion H; reflexivity.
Qed.

Lemma read_rows_ok lost rows batch :
  read_rows lost rows = Ok batch -> Forall2 (fun r ch => map_row r = Ok ch) rows batch.
Proof.
  revert lost batch.
  induction rows as [|r rs IH]; simpl; intros lost batch H.
  - inversion H. constructor.
  - destruct lost as [[|k]|];
      [discriminate| |];
      (destruct (map_row r) as [ch|e] eqn:Hm; [|discriminate]);
      (destruct (read_rows _ rs) as [cs|e] eqn:Hr; [|discriminate]);
      inversion H; subst; constructor; eauto.
Qed.

Lemma advance_max wm b : advance wm b = Nat.max wm (list_max (map ch_ts b)).
Proof.
  unfold advance. revert wm.
  induction b as [|ch b IH]; simpl; intro wm; [lia|].
  rewrite IH. lia.
Qed.

Lemma advance_ge wm b : wm <= advance wm b.
Proof. rewrite advance_max. lia. Qed.

(** The rows a successful FetchChanges has read, in the order of the
    batch. *)
Lemma fetch_ok_rows f c batch c' :
  FetchChanges f c = (Ok batch, c') ->
  Forall2 (fun r ch => map_row r = Ok ch) (query (db c) (watermark c)) batch
  /\ c' = mkCollector (db c) (advance (watermark c) batch).
Proof.
  unfold FetchChanges. destruct f; [| discriminate |];
    destruct (read_rows _ _) as [b|e] eqn:Hr; intro H; inversion H; subst;
    split; try reflexivity; eapply read_rows_ok; eassumption.
Qed.

Lemma in_query r store wm : In r (query store wm) <-> In r store /\ wm < row_ts r.
Proof.
  unfold query. split; intro H.
  - apply (Permutation_in _ (Permutation_sym (sort_rows_perm _))) in H.
    apply filter_In in H as [H1 H2]. apply Nat.ltb_lt in H2. auto.
  - apply (Permutation_in _ (sort_rows_perm _)).
    apply filter_In. split; [tauto|]. apply Nat.ltb_lt. tauto.
Qed.

Lemma forall2_in_l {A B} (P : A -> B -> Prop) l1 l2 x :
  Forall2 P l1 l2 -> In x l1 -> exists y, P x y /\ In y l2.
Proof.
  induction 1 as [|a b l1' l2' Hab _ IH]; simpl; [tauto|].
  intros [<-|Hx]; [exists b; auto|].
  destruct (IH Hx) as (y & Hy & Hin). eauto.
Qed.

Lemma forall2_in_r {A B} (P : A -> B -> Prop) l1 l2 y :
  Forall2 P l1 l2 -> In y l2 -> exists x, P x y /\ In x l1.
Proof.
  induction 1 as [|a b l1' l2' Hab _ IH]; simpl; [tauto|].
  intros [<-|Hy]; [exists a; auto|].
  destruct (IH Hy) as (x & Hx & Hin). eauto.
Qed.

(** Every change of a successful batch lies past the old watermark and
    at or below the new one. *)
Lemma fetch_ok_bounds f c batch c' ch :
  FetchChanges f c = (Ok batch, c') -> In ch batch ->
  watermark c < ch_ts ch /\ ch_ts ch <= watermark c'.
Proof.
  intros H Hin. destruct (fetch_ok_rows _ _ _ _ H) as [HF ->]. simpl.
  destruct (forall2_in_r _ _ _ _ HF Hin) as (r & Hr & Hq).
  apply in_query in Hq. rewrite (map_row_ts _ _ Hr). split; [tauto|].
  rewrite advance_max, <- (map_row_ts _ _ Hr).
  assert (ch_ts ch <= list_max (map ch_ts batch)).
  { pose proof (proj1 (list_max_le (map ch_ts batch) _) (le_n _)) as HA.
    rewrite Forall_forall in HA. apply HA, in_map, Hin. }
  lia.
Qed.

(** After a successful call, no row of the store lies past the
    watermark. *)
Lemma fetch_ok_covers f c batch c' r :
  FetchChanges f c = (Ok batch, c') -> In r (db c) -> row_ts r <= watermark c'.
Proof.
  intros H Hr. pose proof H as H'.
  destruct (fetch_ok_rows _ _ _ _ H) as [HF ->]. simpl.
  destruct (Nat.le_gt_cases (row_ts r) (watermark c)) as [Hle|Hgt].
  - pose proof (advance_ge (watermark c) batch). lia.
  - assert (Hq : In r (query (db c) (watermark c))) by (apply in_query; auto).
    destruct (forall2_in_l _ _ _ _ HF Hq) as (ch & Hch & Hin).
    pose proof (fetch_ok_bounds _ _ _ _ _ H' Hin) as [_ Hb]. simpl in Hb.
    rewrite (map_row_ts _ _ Hch) in Hb. exact Hb.
Qed.

Lemma filter_split {A} (p q1 q2 : A -> bool) l :
  (forall x, In x l -> p x = q1 x || q2 x /\ q1 x && q2 x = false) ->
  Permutation (filter p l) (filter q1 l ++ filter q2 l).
Proof.
  induction l as [|x l IH]; simpl; intro H; [reflexivity|].
  destruct (H x (or_introl eq_refl)) as [Hp Hd].
  assert (IH' : Permutation (filter p l) (filter q1 l ++ filter q2 l))
    by (apply IH; intros y Hy; apply H; right; exact Hy).
  rewrite Hp. destruct (q1 x), (q2 x); simpl in *; try discriminate.
  - constructor. exact IH'.
  - rewrite <- Permutation_middle. constructor. exact IH'.
  - exact IH'.
Qed.

Lemma filter_none {A} (p : A -> bool) l :
  (forall x, In x l -> p x = false) -> filter p l = [].
Proof.
  induction l as [|x l IH]; simpl; intro H; [reflexivity|].
  rewrite (H x (or_introl eq_refl)). apply IH. intros y Hy. apply H. right. exact Hy.
Qed.

Lemma advance_cases wm b :
  advance wm b = wm \/ exists ch, In ch b /\ advance wm b = ch_ts ch.
Proof.
  unfold advance. revert wm.
  induction b as [|ch b IH]; simpl; intro wm; [left; reflexivity|].
  destruct (IH (Nat.max wm (ch_ts ch))) as [E|(ch' & Hin & E)].
  - rewrite E. destruct (Nat.max_spec wm (ch_ts ch)) as [[_ M]|[_ M]]; rewrite M.
    + right. exists ch. auto.
    + left. reflexivity.
  - right. exists ch'. auto.
Qed.

(** What the returned batches amount to after any sequence of calls
    started at watermark [wm0]: exactly the changes past [wm0] and at or
    below the current watermark, each once. *)
Definition exactly_once_inv (wm0 : nat) (c : Collector)
    (bs : list (list AppointmentChange)) : Prop :=
  wm0 <= watermark c
  /\ (watermark c = wm0 \/ exists r, In r (db c) /\ row_ts r = watermark c)
  /\ exists rows,
       Permutation rows
         (filter (fun r => (wm0 <? row_ts r) && (row_ts r <=? watermark c)) (db c))
       /\ Forall2 (fun r ch => map_row r = Ok ch) rows (List.concat bs).

Lemma inv_start c : exactly_once_inv (watermark c) c [].
Proof.
  split; [lia|]. split; [left; reflexivity|].
  exists []. split; [|constructor].
  rewrite filter_none; [reflexivity|].
  intros r _. destruct (Nat.ltb_spec (watermark c) (row_ts r)),
    (Nat.leb_spec (row_ts r) (watermark c)); reflexivity || lia.
Qed.

Lemma inv_append wm0 c bs rows :
  exactly_once_inv wm0 c bs ->
  Forall (fun r => wm0 < row_ts r /\ Forall (fun s => row_ts s < row_ts r) (db c)) rows ->
  exactly_once_inv wm0 (mkCollector (db c ++ rows) (watermark c)) bs.
Proof.
  intros (Hle & Hwm & rs & Hp & HF) Hadv. unfold exactly_once_inv; simpl.
  assert (Hnew : forall r, In r rows -> watermark c < row_ts r).
  { intros r Hr. rewrite Forall_forall in Hadv. destruct (Hadv r Hr) as [H0 Hs].
    destruct Hwm as [->|(s & Hs' & <-)]; [exact H0|].
    rewrite Forall_forall in Hs. apply Hs. exact Hs'. }
  split; [exact Hle|]. split.
  - destruct Hwm as [E|(s & Hs & E)]; [left; exact E|].
    right. exists s. split; [apply in_or_app; left|]; assumption.
  - exists rs. split; [|exact HF].
    rewrite filter_app, (filter_none _ rows), app_nil_r; [exact Hp|].
    intros r Hr. specialize (Hnew r Hr).
    destruct (Nat.leb_spec (row_ts r) (watermark c)); [lia|].
    apply andb_false_r.
Qed.

Lemma inv_fetch_ok wm0 c bs f b c' :
  exactly_once_inv wm0 c bs ->
  FetchChanges f c = (Ok b, c') ->
  exactly_once_inv wm0 c' (bs ++ [b]).
Proof.
  intros (Hle & Hwm & rs & Hp & HF) H.
  pose proof (fun r => fetch_ok_covers f c b c' r H) as Hcov.
  destruct (fetch_ok_rows _ _ _ _ H) as [HQ ->]. unfold exactly_once_inv; simpl in *.
  pose proof (advance_ge (watermark c) b) as Hge.
  split; [lia|]. split.
  - destruct (advance_cases (watermark c) b) as [E|(ch & Hin & E)]; rewrite E.
    + destruct Hwm as [E'|(r & Hr & E')]; [left; exact E'|right; exists r; split; assumption].
    + right. destruct (forall2_in_r _ _ _ _ HQ Hin) as (r & Hr & Hq).
      apply in_query in Hq. exists r. split; [tauto|].
      symmetry. apply map_row_ts. exact Hr.
  - exists (rs ++ query (db c) (watermark c)). split.
    + rewrite filter_split with (q1 := fun r => (wm0 <? row_ts r) && (row_ts r <=? watermark c))
                                (q2 := fun r => watermark c <? row_ts r).
      * apply Permutation_app; [exact Hp|]. unfold query. symmetry. apply sort_rows_perm.
      * intros r Hr. specialize (Hcov r Hr). simpl in Hcov.
        destruct (Nat.ltb_spec wm0 (row_ts r)), (Nat.leb_spec (row_ts r) (watermark c)),
                 (Nat.ltb_spec (watermark c) (row_ts r)),
                 (Nat.leb_spec (row_ts r) (advance (watermark c) b));
          simpl; split; reflexivity || lia.
    + rewrite concat_app. simpl. rewrite app_nil_r. apply Forall2_app; assumption.
Qed.

Lemma inv_run wm0 acts c bs :
  exactly_once_inv wm0 c bs -> advancing_source wm0 (db c) acts ->
  let '(c', bs') := collector_run acts c in exactly_once_inv wm0 c' (bs ++ bs').
Proof.
  revert c bs. induction acts as [|[f|rows] acts IH]; simpl; intros c bs Hi Ha.
  - rewrite app_nil_r. exact Hi.
  - destruct (FetchChanges f c) as [[b|e] c'] eqn:Hf.
    + pose proof (inv_fetch_ok _ _ _ _ _ _ Hi Hf) as Hi'.
      destruct (fetch_ok_rows _ _ _ _ Hf) as [_ Hc'].
      specialize (IH c' (bs ++ [b]) Hi').
      rewrite Hc' in IH. simpl in IH. rewrite <- Hc' in IH.
      destruct (collector_run acts c') as [c'' bs''].
      rewrite <- app_assoc in IH. apply IH. exact Ha.
    + assert (c' = c).
      { unfold FetchChanges in Hf. destruct f;
          [destruct (read_rows _ _)| |destruct (read_rows _ _)];
          inversion Hf; reflexivity. }
      subst c'. apply IH; assumption.
  - destruct Ha as [Hrows Ha].
    apply IH; [apply inv_append|]; assumption.
Qed.

End CollectorFacts.

Module CollectorClaims.
Import Collector CollectorFacts.

(** C1: for every sequence of FetchChanges calls against a monotonically
    advancing change source (every new row lies past the starting
    watermark and strictly after every row already in the store), the
    returned batches together hold exactly the changes past the starting
    watermark and up to the current watermark, each exactly once (a
    permutation of them, so no duplicate and no gap); and as soon as one
    more call succeeds, the batches hold every change of the store past the
    starting watermark, each exactly once. *)
Theorem fetch_changes_exactly_once acts c0 :
  advancing_source (watermark c0) (db c0) acts ->
  let '(c, bs) := collector_run acts c0 in
  (exists rows,
     Permutation rows
       (filter (fun r => (watermark c0 <? row_ts r) && (row_ts r <=? watermark c)) (db c))
     /\ Forall2 (fun r ch => map_row r = Ok ch) rows (List.concat bs))
  /\ (forall f b c', FetchChanges f c = (Ok b, c') ->
       exists rows,
         Permutation rows (filter (fun r => watermark c0 <? row_ts r) (db c))
         /\ Forall2 (fun r ch => map_row r = Ok ch) rows (List.concat bs ++ b)).
Proof.
  intro Ha.
  pose proof (inv_run (watermark c0) acts c0 [] (inv_start c0) Ha) as Hi.
  destruct (collector_run acts c0) as [c bs]. simpl in Hi.
  split.
  - destruct Hi as (_ & _ & H). exact H.
  - intros f b c' Hf.
    pose proof (inv_fetch_ok _ _ _ _ _ _ Hi Hf) as (_ & _ & rows & Hp & HF).
    pose proof (fun r => fetch_ok_covers f c b c' r Hf) as Hcov.
    destruct (fetch_ok_rows _ _ _ _ Hf) as [_ Hc']. subst c'. simpl in *.
    exists rows. split.
    + rewrite Hp. apply Permutation_refl'. apply filter_ext_in.
      intros r Hr. specialize (Hcov r Hr).
      destruct (Nat.leb_spec (row_ts r) (advance (watermark c) b)); [|lia].
      apply andb_true_r.
    + rewrite concat_app in HF. simpl in HF. rewrite app_nil_r in HF. exact HF.
Qed.

Lemma fetch_changes_exactly_once_witness :
  advancing_source (watermark scenario) (db scenario) scenario_calls /\
  let '(c, bs) := collector_run scenario_calls scenario in
  (exists rows,
     Permutation rows
       (filter (fun r => (watermark scenario <? row_ts r) && (row_ts r <=? watermark c)) (db c))
     /\ Forall2 (fun r ch => map_row r = Ok ch) rows (List.concat bs))
  /\ (forall f b c', FetchChanges f c = (Ok b, c') ->
       exists rows,
         Permutation rows (filter (fun r => watermark scenario <? row_ts r) (db c))
         /\ Forall2 (fun r ch => map_row r = Ok ch) rows (List.concat bs ++ b)).
Proof.
  assert (Ha : advancing_source (watermark scenario) (db scenario) scenario_calls).
  { simpl. split; [|exact I]. repeat constructor; simpl; lia. }
  split; [exact Ha|].
  exact (fetch_changes_exactly_once scenario_calls scenario Ha).
Defined.

(** C2: a failed FetchChanges call (query failure, connection lost after
    some rows were read, or a row that cannot be mapped) leaves the
    Collector, and so its watermark, unchanged; the next successful call,
    on the store as it is then (possibly with new rows appended), returns a
    change for every row past that watermark, among them every row the
    failed call was reading. *)
Theorem fetch_failure_keeps_watermark f c e c' :
  FetchChanges f c = (Err e, c') ->
  c' = c
  /\ (forall rows f' batch c'',
        FetchChanges f' (mkCollector (db c' ++ rows) (watermark c')) = (Ok batch, c'') ->
        forall r, In r (db c' ++ rows) -> watermark c' < row_ts r ->
        exists ch, map_row r = Ok ch /\ In ch batch).
Proof.
  intro H.
  assert (Hc : c' = c).
  { unfold FetchChanges in H. destruct f;
      [destruct (read_rows _ _)| |destruct (read_rows _ _)];
      inversion H; reflexivity. }
  split; [exact Hc|].
  intros rows f' batch c'' Hok r Hr Hts.
  destruct (fetch_ok_rows _ _ _ _ Hok) as [HF _]. simpl in HF.
  apply (forall2_in_l _ _ _ _ HF). apply in_query. auto.
Qed.

Lemma fetch_failure_keeps_watermark_witness :
  FetchChanges (LostAfter 1) scenario = (Err ConnectionLost, scenario)
  /\ scenario = scenario
  /\ (forall rows f' batch c'',
        FetchChanges f' (mkCollector (db scenario ++ rows) (watermark scenario)) = (Ok batch, c'') ->
        forall r, In r (db scenario ++ rows) -> watermark scenario < row_ts r ->
        exists ch, map_row r = Ok ch /\ In ch batch).
Proof.
  assert (H : FetchChanges (LostAfter 1) scenario = (Err ConnectionLost, scenario))
    by reflexivity.
  split; [exact H|].
  exact (fetch_failure_keeps_watermark (LostAfter 1) scenario ConnectionLost scenario H).
Defined.

(** C3: a successful FetchChanges call returns exactly the rows whose
    change timestamp is strictly greater than the watermark (a
    permutation of them), ordered ascending by (timestamp, row id), each
    mapped to its AppointmentChange; the store is untouched and the
    watermark becomes the largest timestamp of the batch, or stays as it
    was when the batch is empty. *)
Theorem fetch_changes_returns_rows_past_watermark f c batch c' :
  FetchChanges f c = (Ok batch, c') ->
  exists rows,
    Permutation rows (filter (fun r => watermark c <? row_ts r) (db c))
    /\ Sorted row_le rows
    /\ Forall2 (fun r ch => map_row r = Ok ch) rows batch
    /\ db c' = db c
    /\ watermark c' = match batch with
                      | [] => watermark c
                      | _ => list_max (map ch_ts batch)
                      end.
Proof.
  intro H. pose proof H as H'.
  destruct (fetch_ok_rows _ _ _ _ H) as [HF ->].
  exists (query (db c) (watermark c)). repeat split.
  - unfold query. symmetry. apply sort_rows_perm.
  - apply sort_rows_sorted.
  - exact HF.
  - simpl. rewrite advance_max. destruct batch as [|ch b]; simpl; [lia|].
    pose proof (fetch_ok_bounds _ _ _ _ ch H' (or_introl eq_refl)) as [Hlt _].
    lia.
Qed.

Lemma fetch_changes_returns_rows_past_watermark_witness :
  FetchChanges NoFault scenario =
    (Ok [mkChange 1 Booked 1 "patient A"%string; mkChange 2 Cancelled 2 "patient B"%string],
     mkCollector (db scenario) 2)
  /\ exists rows,
    Permutation rows (filter (fun r => watermark scenario <? row_ts r) (db scenario))
    /\ Sorted row_le rows
    /\ Forall2 (fun r ch => map_row r = Ok ch) rows
         [mkChange 1 Booked 1 "patient A"%string; mkChange 2 Cancelled 2 "patient B"%string]
    /\ db (mkCollector (db scenario) 2) = db scenario
    /\ watermark (mkCollector (db scenario) 2) = 2.
Proof.
  assert (H : FetchChanges NoFault scenario =
    (Ok [mkChange 1 Booked 1 "patient A"%string; mkChange 2 Cancelled 2 "patient B"%string],
     mkCollector (db scenario) 2)) by reflexivity.
  split; [exact H|].
  exact (fetch_changes_returns_rows_past_watermark _ _ _ _ H).
Defined.

End CollectorClaims.

(* ------------------------------------------------------------------ *)
(** ** Mailer *)

Module MailerFacts.
Import Collector Mailer Events MailerImpl.

Lemma queued_app l1 l2 : queued (l1 ++ l2) = queued l1 ++ queued l2.
Proof. apply flat_map_app. Qed.
Lemma attempts_app l1 l2 : attempts (l1 ++ l2) = attempts l1 ++ attempts l2.
Proof. apply flat_map_app. Qed.
Lemma undelivered_app l1 l2 : undelivered (l1 ++ l2) = undelivered l1 ++ undelivered l2.
Proof. apply flat_map_app. Qed.

Lemma queued_map_undelivered q : queued (map EvUndelivered q) = [].
Proof. induction q as [|m q IH]; simpl; [reflexivity|exact IH]. Qed.
Lemma attempts_map_undelivered q : attempts (map EvUndelivered q) = [].
Proof. induction q as [|m q IH]; simpl; [reflexivity|exact IH]. Qed.
Lemma undelivered_map_undelivered q : undelivered (map EvUndelivered q) = q.
Proof. induction q as [|m q IH]; simpl; [reflexivity|rewrite IH; reflexivity]. Qed.

(** The queue discipline of the mailer: every accepted message has been
    handed to the transport, dropped at the end of the grace period, or is
    still queued, in the order it was accepted; once messages are dropped
    the worker has stopped for good; a stop the worker has seen never
    leaves it Running. *)
Definition fifo_inv (t : Mailer) (evs : list Event) : Prop :=
  queued evs = attempts evs ++ undelivered evs ++ mqueue t
  /\ (undelivered evs <> [] -> mqueue t = [] /\ mstate t = Stopped /\ stop_seen t = true)
  /\ (stop_seen t = true -> mstate t <> Running)
  /\ (mstate t = Draining -> stop_seen t = true).

Lemma fifo_inv_new cfg : fifo_inv (New cfg) [].
Proof. unfold fifo_inv; simpl; repeat split; intros; congruence. Qed.

Ltac crunch_lists :=
  repeat rewrite ?queued_app, ?attempts_app, ?undelivered_app, ?app_nil_r, <- ?app_assoc,
    ?queued_map_undelivered, ?attempts_map_undelivered, ?undelivered_map_undelivered in *;
  simpl in *.

(** Splits on whether messages were already dropped; where the step
    needs the worker alive, a drop contradicts the invariant. *)
Ltac no_drops Hd evs0 :=
  let E := fresh "E" in
  destruct (list_eq_dec msg_eq_dec (undelivered evs0) []) as [E|E];
  [rewrite E in *; simpl in * | exfalso; destruct (Hd E) as (? & ? & ?); congruence].

Ltac close_inv Hq Hd Hs Hdr evs0 :=
  unfold fifo_inv; simpl; crunch_lists;
  first
    [ exact (conj Hq (conj Hd (conj Hs Hdr)))
    | no_drops Hd evs0; repeat split; intros; crunch_lists;
      try congruence;
      try (rewrite Hq; rewrite ?app_assoc; reflexivity);
      try (apply Hdr; reflexivity);
      try solve [eauto] ].

Lemma fifo_inv_act a t closed evs0 t' closed' evs :
  fifo_inv t evs0 ->
  mailer_act a (t, closed) = ((t', closed'), evs) ->
  fifo_inv t' (evs0 ++ evs).
Proof.
  destruct t as [cfg st q seen].
  intros (Hq & Hd & Hs & Hdr) H; simpl in *.
  destruct a as [| m | | w]; simpl in H.
  - unfold Run in H; simpl in H.
    destruct st, seen; inversion H; subst; clear H; close_inv Hq Hd Hs Hdr evs0.
  - unfold Enqueue in H; simpl in H.
    destruct st; inversion H; subst; clear H; close_inv Hq Hd Hs Hdr evs0.
  - inversion H; subst; clear H; close_inv Hq Hd Hs Hdr evs0.
  - destruct (worker_step closed w _) as [t1 evs1] eqn:Hw. inversion H; subst; clear H.
    unfold worker_step in Hw; simpl in Hw.
    destruct w as [[|]| |]; destruct st; destruct q as [|m q]; destruct closed';
      inversion Hw; subst; clear Hw; close_inv Hq Hd Hs Hdr evs0.
Qed.

Lemma fifo_inv_run acts t closed evs0 :
  fifo_inv t evs0 ->
  let '((t', _), evs) := mailer_run acts (t, closed) in fifo_inv t' (evs0 ++ evs).
Proof.
  revert t closed evs0.
  induction acts as [|a acts IH]; cbn [mailer_run]; intros t closed evs0 Hi.
  - rewrite app_nil_r. exact Hi.
  - destruct (mailer_act a (t, closed)) as [[t1 c1] evs1] eqn:Ha.
    pose proof (fifo_inv_act _ _ _ _ _ _ _ Hi Ha) as Hi1.
    specialize (IH t1 c1 (evs0 ++ evs1) Hi1).
    destruct (mailer_run acts (t1, c1)) as [[t2 c2] evs2].
    rewrite <- app_assoc in IH. exact IH.
Qed.

Lemma fifo_inv_reach acts cfg t closed evs :
  mailer_run acts (New cfg, false) = ((t, closed), evs) -> fifo_inv t evs.
Proof.
  intro H. pose proof (fifo_inv_run acts (New cfg) false [] (fifo_inv_new cfg)) as Hi.
  rewrite H in Hi. exact Hi.
Qed.

End MailerFacts.

Module MailerClaims.
Import Collector Mailer Events MailerImpl MailerFacts.

(** C4: in every execution of the mailer (any interleaving of Run,
    Enqueue calls, the closing of the stop channel and worker moves), once
    the worker has observed the stop signal, Enqueue returns NotRunning,
    leaves the mailer (and its queue) unchanged and performs no transport
    action; while the mailer is Running, Enqueue is a single push of the
    message onto the back of the queue and performs no transport action
    either.  Enqueue is one step with no SMTP event: it cannot block on
    network I/O. *)
Theorem enqueue_after_shutdown_rejected acts cfg t closed evs m :
  mailer_run acts (New cfg, false) = ((t, closed), evs) ->
  (stop_seen t = true -> Enqueue m t = (Some NotRunning, t, []))
  /\ (mstate t = Running ->
      Enqueue m t = (None, mkMailer (mcfg t) Running (mqueue t ++ [m]) (stop_seen t), [EvQueued m])).
Proof.
  intro H. destruct (fifo_inv_reach _ _ _ _ _ H) as (_ & _ & Hs & _).
  unfold Enqueue. split.
  - intro Hseen. specialize (Hs Hseen).
    destruct (mstate t); [reflexivity | congruence | reflexivity].
  - intros ->. reflexivity.
Qed.

Lemma enqueue_after_shutdown_rejected_witness :
  mailer_run [MRun; MEnqueue sample_message; MCloseStop; MWorker WObserveStop]
    (New sample_config, false)
  = ((mkMailer sample_config Draining [sample_message] true, true), [EvQueued sample_message])
  /\ Enqueue sample_message (mkMailer sample_config Draining [sample_message] true)
     = (Some NotRunning, mkMailer sample_config Draining [sample_message] true, []).
Proof.
  assert (H : mailer_run [MRun; MEnqueue sample_message; MCloseStop; MWorker WObserveStop]
                (New sample_config, false)
              = ((mkMailer sample_config Draining [sample_message] true, true),
                 [EvQueued sample_message])) by reflexivity.
  split; [exact H|].
  exact (proj1 (enqueue_after_shutdown_rejected _ _ _ _ _ sample_message H) eq_refl).
Defined.

(** C5: in every execution of the mailer, the messages handed to the SMTP
    transport are, in order, a prefix of the messages accepted by Enqueue:
    the i-th send attempt is the i-th enqueued message, so a message
    enqueued before another is attempted before it. *)
Theorem worker_sends_in_enqueue_order acts cfg s evs :
  mailer_run acts (New cfg, false) = (s, evs) ->
  (exists rest, queued evs = attempts evs ++ rest)
  /\ (forall i, i < List.length (attempts evs) ->
       nth_error (attempts evs) i = nth_error (queued evs) i).
Proof.
  destruct s as [t closed]. intro H.
  destruct (fifo_inv_reach _ _ _ _ _ H) as (Hq & _).
  split.
  - exists (undelivered evs ++ mqueue t). exact Hq.
  - intros i Hi. rewrite Hq. symmetry. apply nth_error_app1. exact Hi.
Qed.

Lemma worker_sends_in_enqueue_order_witness :
  let m2 := mkMessage "mailer@example.org" "office@example.org" "second" [] in
  let m3 := mkMessage "mailer@example.org" "office@example.org" "third" [] in
  let evs := [EvQueued sample_message; EvQueued m2; EvSmtpSend sample_message;
              EvSmtpSend m2; EvSendFailed m2; EvQueued m3] in
  mailer_run [MRun; MEnqueue sample_message; MEnqueue m2; MWorker (WSend true);
              MWorker (WSend false); MEnqueue m3] (New sample_config, false)
  = ((mkMailer sample_config Running [m3] false, false), evs)
  /\ (exists rest, queued evs = attempts evs ++ rest)
  /\ (forall i, i < List.length (attempts evs) ->
       nth_error (attempts evs) i = nth_error (queued evs) i).
Proof.
  intros m2 m3 evs.
  assert (H : mailer_run [MRun; MEnqueue sample_message; MEnqueue m2; MWorker (WSend true);
                          MWorker (WSend false); MEnqueue m3] (New sample_config, false)
              = ((mkMailer sample_config Running [m3] false, false), evs)) by reflexivity.
  split; [exact H|].
  exact (worker_sends_in_enqueue_order _ _ _ _ H).
Defined.

(** C7: in every execution of the mailer, no accepted message is sent
    twice: each message is attempted at most as often as it was
    enqueued; and a failed send is logged and dropped, the worker going on
    with the rest of the queue (the message is not put back). *)
Theorem worker_attempts_each_message_at_most_once acts cfg s evs :
  mailer_run acts (New cfg, false) = (s, evs) ->
  (forall m, count_occ msg_eq_dec (attempts evs) m <= count_occ msg_eq_dec (queued evs) m)
  /\ (forall closed t m q, mstate t <> Stopped -> mqueue t = m :: q ->
       worker_step closed (WSend false) t
       = (mkMailer (mcfg t) (mstate t) q (stop_seen t), [EvSmtpSend m; EvSendFailed m])).
Proof.
  destruct s as [t closed]. intro H.
  destruct (fifo_inv_reach _ _ _ _ _ H) as (Hq & _).
  split.
  - intro m. rewrite Hq, count_occ_app. lia.
  - intros c [cfg' st q' seen] m q Hst Hq'. simpl in *. subst q'.
    destruct st; [congruence | reflexivity | reflexivity].
Qed.

Lemma worker_attempts_each_message_at_most_once_witness :
  let acts := [MRun; MEnqueue sample_message; MWorker (WSend false); MWorker (WSend false)] in
  mailer_run acts (New sample_config, false)
  = ((mkMailer sample_config Running [] false, false),
     [EvQueued sample_message; EvSmtpSend sample_message; EvSendFailed sample_message])
  /\ (forall m, count_occ msg_eq_dec
                 (attempts [EvQueued sample_message; EvSmtpSend sample_message;
                            EvSendFailed sample_message]) m
               <= count_occ msg_eq_dec
                 (queued [EvQueued sample_message; EvSmtpSend sample_message;
                          EvSendFailed sample_message]) m).
Proof.
  intro acts.
  assert (H : mailer_run acts (New sample_config, false)
              = ((mkMailer sample_config Running [] false, false),
                 [EvQueued sample_message; EvSmtpSend sample_message; EvSendFailed sample_message]))
    by reflexivity.
  split; [exact H|].
  exact (proj1 (worker_attempts_each_message_at_most_once _ _ _ _ H)).
Defined.

End MailerClaims.

(* ------------------------------------------------------------------ *)
(** ** Job *)

Module JobClaims.
Import Collector CollectorFacts Mailer Events MailerImpl Job.

Lemma watermark_run_mono acts c : watermark c <= watermark (fst (collector_run acts c)).
Proof.
  revert c. induction acts as [|[f|rows] acts IH]; intro c; simpl; [lia| |].
  - destruct (FetchChanges f c) as [[b|e] c'] eqn:Hf.
    + destruct (fetch_ok_rows _ _ _ _ Hf) as [_ ->].
      specialize (IH (mkCollector (db c) (advance (watermark c) b))).
      destruct (collector_run acts _) as [c'' bs]. simpl in *.
      pose proof (advance_ge (watermark c) b). lia.
    + assert (c' = c).
      { unfold FetchChanges in Hf. destruct f;
          [destruct (read_rows _ _)| |destruct (read_rows _ _)];
          inversion Hf; reflexivity. }
      subst c'. apply IH.
  - apply (IH (mkCollector (db c ++ rows) (watermark c))).
Qed.

(** C6: Job.Run follows one linear sequence.  If FetchChanges fails, the
    error is logged, the Collector (so its watermark) and the Mailer are
    unchanged and Enqueue is not called.  If the batch is empty, nothing
    is logged or enqueued and the Mailer is untouched.  Otherwise exactly
    one NotificationMessage, rendered from the batch, is passed to exactly
    one Enqueue call; if that call fails the error is logged and the
    message dropped (the Mailer is unchanged); and, the watermark having
    advanced, no change of the batch is returned by any later successful
    FetchChanges call, whatever calls and new rows come in between. *)
Theorem job_run_steps f c t c' t' evs :
  Job.Run f c t = (c', t', evs) ->
  (forall e c1, FetchChanges f c = (Err e, c1) ->
     c' = c /\ t' = t /\ evs = [EvFetchFailed e] /\ enqueue_calls evs = [])
  /\ (forall c1, FetchChanges f c = (Ok [], c1) ->
     c' = c1 /\ t' = t /\ evs = [])
  /\ (forall batch c1, FetchChanges f c = (Ok batch, c1) -> batch <> [] ->
     c' = c1
     /\ enqueue_calls evs = [render (mcfg t) batch]
     /\ (forall e, fst (fst (Enqueue (render (mcfg t) batch) t)) = Some e ->
           t' = t /\ evs = [EvEnqueueCall (render (mcfg t) batch); EvEnqueueFailed e])
     /\ (forall acts f' b c3, FetchChanges f' (fst (collector_run acts c1)) = (Ok b, c3) ->
           forall ch, In ch batch -> ~ In ch b)).
Proof.
  intro H. unfold Job.Run in H.
  split; [|split].
  - intros e c1 Hf.
    assert (c1 = c).
    { unfold FetchChanges in Hf. destruct f;
        [destruct (read_rows _ _)| |destruct (read_rows _ _)];
        inversion Hf; reflexivity. }
    subst c1. rewrite Hf in H. inversion H; subst. auto.
  - intros c1 Hf. rewrite Hf in H. inversion H; subst. auto.
  - intros batch c1 Hf Hne. rewrite Hf in H. destruct batch as [|ch0 b0]; [congruence|].
    set (batch := ch0 :: b0) in *.
    assert (Hnever : forall acts f' b c3, FetchChanges f' (fst (collector_run acts c1)) = (Ok b, c3) ->
                     forall ch, In ch batch -> ~ In ch b).
    { intros acts f' b c3 Hf' ch Hin Hin'.
      pose proof (fetch_ok_bounds _ _ _ _ _ Hf Hin) as [_ H1].
      pose proof (fetch_ok_bounds _ _ _ _ _ Hf' Hin') as [H2 _].
      pose proof (watermark_run_mono acts c1). lia. }
    unfold Enqueue in H |- *.
    destruct (mstate t); inversion H; subst; simpl;
      repeat split; try reflexivity; try exact Hnever; congruence.
Qed.

Lemma job_run_steps_witness :
  Job.Run NoFault scenario (New sample_config)
  = (mkCollector (db scenario) 2, New sample_config,
     [EvEnqueueCall (render sample_config
        [mkChange 1 Booked 1 "patient A"%string; mkChange 2 Cancelled 2 "patient B"%string]);
      EvEnqueueFailed NotRunning])
  /\ enqueue_calls
       [EvEnqueueCall (render sample_config
          [mkChange 1 Booked 1 "patient A"%string; mkChange 2 Cancelled 2 "patient B"%string]);
        EvEnqueueFailed NotRunning]
     = [render sample_config
          [mkChange 1 Booked 1 "patient A"%string; mkChange 2 Cancelled 2 "patient B"%string]].
Proof.
  assert (H : Job.Run NoFault scenario (New sample_config)
    = (mkCollector (db scenario) 2, New sample_config,
       [EvEnqueueCall (render sample_config
          [mkChange 1 Booked 1 "patient A"%string; mkChange 2 Cancelled 2 "patient B"%string]);
        EvEnqueueFailed NotRunning])) by reflexivity.
  split; [exact H|].
  destruct (job_run_steps _ _ _ _ _ _ H) as (_ & _ & H3).
  apply (H3 [mkChange 1 Booked 1 "patient A"%string; mkChange 2 Cancelled 2 "patient B"%string]
            (mkCollector (db scenario) 2)); [reflexivity | discriminate].
Defined.

End JobClaims.

(* ------------------------------------------------------------------ *)
(** ** The process: main's sequence, the scheduler and the worker *)

Module ProcessFacts.
Import Collector Mailer Events MailerImpl Main Process.

Ltac in_list := solve [simpl; repeat first [left; reflexivity | right]].
Ltac not_in_list := let H := fresh in
  solve [intro H; simpl in H; repeat destruct H as [H|H]; try discriminate; try contradiction].

(** The run of [main] in each case of its environment. *)
Lemma main_shape env :
  main env =
  match load_err env with
  | Some e => [EvPrintf load_config_msg e; EvShowAppHelp; EvExit 128]
  | None =>
  match open_log_err env with
  | Some e => [EvPrintf open_log_msg e; EvShowAppHelp; EvExit 128]
  | None =>
  match parse_level_err env with
  | Some e => [EvOpenLogFile; EvSetLogger; EvPrintf parse_level_msg e; EvShowAppHelp;
               EvLogFileClose; EvExit 128]
  | None =>
  match open_sql_err env with
  | Some _ =>
      [EvOpenLogFile; EvSetLogger; EvSetGlobalLevel; EvMakeStop; EvOpenSQL]
      ++ (if fatal_enabled (log_level env) then [EvLogFatal] else [EvLogFileClose])
      ++ [EvExit 1]
  | None =>
      if smtp_reachable env then
        [EvOpenLogFile; EvSetLogger; EvSetGlobalLevel; EvMakeStop; EvOpenSQL;
         EvNewCollector; EvNewMailer; EvMailerRun; EvNewJob; EvCronNew;
         EvCronAddFunc; EvCronStart; EvSignalNotify; EvSignalReceived;
         EvCronStop; EvCloseSigs; EvCloseStop; EvDbClose; EvLogFileClose; EvExit 0]
      else
        [EvOpenLogFile; EvSetLogger; EvSetGlobalLevel; EvMakeStop; EvOpenSQL;
         EvNewCollector; EvNewMailer; EvMailerRun; EvMailerFatal; EvExit 1]
  end end end end.
Proof.
  destruct env as [[l|] [o|] [pl|] lv [s|] [|] c];
    first [reflexivity | destruct lv; reflexivity].
Qed.

Lemma main_is_main env : forallb is_main (main env) = true.
Proof.
  destruct env as [[l|] [o|] [pl|] lv [s|] [|] c];
    first [reflexivity | destruct lv; reflexivity].
Qed.

Lemma main_ok env :
  load_err env = None -> open_log_err env = None ->
  parse_level_err env = None -> open_sql_err env = None -> smtp_reachable env = true ->
  main env = main_ok_trace.
Proof.
  intros H1 H2 H3 H4 H5. rewrite main_shape, H1, H2, H3, H4, H5. reflexivity.
Qed.

(** Without a complete start-up, main never starts the scheduler. *)
Lemma main_no_cron env :
  ~ (load_err env = None /\ open_log_err env = None /\ parse_level_err env = None
     /\ open_sql_err env = None /\ smtp_reachable env = true) ->
  ~ In EvCronStart (main env).
Proof.
  intro H. rewrite main_shape.
  destruct (load_err env) eqn:E1; [not_in_list|].
  destruct (open_log_err env) eqn:E2; [not_in_list|].
  destruct (parse_level_err env) eqn:E3; [not_in_list|].
  destruct (open_sql_err env) eqn:E4; [destruct (fatal_enabled (log_level env)); not_in_list|].
  destruct (smtp_reachable env) eqn:E5; [|not_in_list].
  exfalso. apply H. repeat split; assumption.
Qed.

Lemma exec_cons cfg p evs p1 tr p2 :
  pstep cfg p evs p1 -> exec cfg p1 tr p2 -> exec cfg p (evs ++ tr) p2.
Proof.
  intros Hs He. revert Hs.
  induction He as [q|q tr q1 evs1 q2 He IH Hs2]; intro Hs.
  - rewrite app_nil_r. exact (exec_snoc cfg p [] p evs q (exec_nil cfg p) Hs).
  - rewrite app_assoc. exact (exec_snoc cfg p _ q1 evs1 q2 (IH Hs) Hs2).
Qed.

(** Job.Run is its fetch followed, for a non-empty batch, by its Enqueue
    call. *)
Lemma run_split f c t :
  Job.Run f c t =
  match Job.Run_fetch f c with
  | (c', None, evs) => (c', t, evs)
  | (c', Some b, evs) => let (t', evs2) := Job.Run_enqueue b t in (c', t', evs ++ evs2)
  end.
Proof.
  unfold Job.Run, Job.Run_fetch, Job.Run_enqueue.
  destruct (FetchChanges f c) as [[[|x b]|e] c1]; [reflexivity| |reflexivity].
  cbv zeta. destruct (Enqueue (Job.render (mcfg t) (x :: b)) t) as [[[e|] t'] evs]; reflexivity.
Qed.

Lemma quiet_counts l :
  forallb quiet l = true -> filter is_main l = [] /\ ticks l = 0 /\ fires l = 0.
Proof.
  unfold ticks, fires. induction l as [|a l IH]; intro H; [repeat split|].
  simpl in H. apply andb_prop in H as [Ha Hl]. destruct (IH Hl) as [H1 [H2 H3]].
  unfold quiet in Ha. simpl.
  destruct (is_main a), (is_tick a), (is_fire a); simpl in Ha; try discriminate.
  repeat split; assumption.
Qed.

Lemma quiet_undelivered q : forallb quiet (map EvUndelivered q ++ [EvWorkerExit]) = true.
Proof. induction q as [|m q IH]; [reflexivity|]. exact IH. Qed.

Lemma worker_step_quiet closed w t t' evs :
  worker_step closed w t = (t', evs) -> forallb quiet evs = true.
Proof.
  unfold worker_step.
  destruct w as [ok| |], (mstate t), (mqueue t); try destruct closed; try destruct ok;
    intro H; inversion H; subst; first [reflexivity | apply quiet_undelivered].
Qed.

Lemma run_fetch_quiet f c c' ob evs :
  Job.Run_fetch f c = (c', ob, evs) -> forallb quiet evs = true.
Proof.
  unfold Job.Run_fetch. destruct (FetchChanges f c) as [[[|x b]|e] c1];
    intro H; inversion H; reflexivity.
Qed.

Lemma run_enqueue_quiet b t t' evs :
  Job.Run_enqueue b t = (t', evs) -> forallb quiet evs = true.
Proof.
  unfold Job.Run_enqueue, Enqueue. destruct (mstate t); intro H; inversion H; reflexivity.
Qed.

Lemma launched_app A B : launched (A ++ B) = launched A + launched B.
Proof. unfold launched. rewrite filter_app, length_app. reflexivity. Qed.

Lemma ticks_app A B : ticks (A ++ B) = ticks A + ticks B.
Proof. unfold ticks. rewrite filter_app, length_app. reflexivity. Qed.

Lemma fires_app A B : fires (A ++ B) = fires A + fires B.
Proof. unfold fires. rewrite filter_app, length_app. reflexivity. Qed.

Lemma in_ticks l : In EvJobTick l -> 0 < ticks l.
Proof.
  unfold ticks. induction l as [|a l IH]; simpl; [contradiction|].
  intros [->|H]; simpl; [lia|]. destruct (is_tick a); simpl; specialize (IH H); lia.
Qed.

Lemma in_fires l : In EvCronFire l -> 0 < fires l.
Proof.
  unfold fires. induction l as [|a l IH]; simpl; [contradiction|].
  intros [->|H]; simpl; [lia|]. destruct (is_fire a); simpl; specialize (IH H); lia.
Qed.

Lemma main_effect_main cfg e p : p_main (main_effect cfg e p) = p_main p.
Proof. destruct e; reflexivity. Qed.

Lemma main_effect_cron cfg e p :
  p_cron (main_effect cfg e p) =
  match e with EvCronStart => true | EvCronStop => false | _ => p_cron p end.
Proof. destruct e; reflexivity. Qed.

Lemma main_effect_jobs cfg e p : p_jobs (main_effect cfg e p) = p_jobs p.
Proof. destruct e; reflexivity. Qed.

(** Every step is main performing its next event, or a step of another
    goroutine or of the store, which emits no event of main and leaves
    main's remaining events and the scheduler as they are: a launch by
    the running scheduler, the start of a launched Job.Run, or a step
    that neither launches nor starts Job.Run. *)
Lemma pstep_cases cfg p evs p' : pstep cfg p evs p' ->
  (exists e rest, p_main p = e :: rest /\ evs = [e] /\ p_main p' = rest
     /\ p_cron p' = match e with EvCronStart => true | EvCronStop => false | _ => p_cron p end
     /\ p_jobs p' = p_jobs p)
  \/ (p_main p <> [] /\ filter is_main evs = [] /\ p_main p' = p_main p /\ p_cron p' = p_cron p
      /\ ((evs = [EvCronFire] /\ p_cron p = true
           /\ launched (p_jobs p') = S (launched (p_jobs p)))
          \/ (exists r, evs = EvJobTick :: r /\ ticks r = 0 /\ fires r = 0
                /\ launched (p_jobs p) = S (launched (p_jobs p')))
          \/ (ticks evs = 0 /\ fires evs = 0 /\ launched (p_jobs p') = launched (p_jobs p)))).
Proof.
  intro Hs.
  destruct Hs as [p e rest Hm|p Hne Hc|p J1 J2 f c' ob evs Hne Hj Hdb Hf
                 |p J1 b J2 t' evs Hne Hj He|p w t' evs Hne Hw|p rows Hne].
  - left. exists e, rest.
    rewrite main_effect_main, main_effect_cron, main_effect_jobs.
    repeat split; first [exact Hm | reflexivity].
  - right. do 4 (split; [first [exact Hne | reflexivity]|]).
    left. split; [reflexivity|]. split; [exact Hc|].
    cbn [p_jobs]. rewrite launched_app. change (launched [JobLaunched]) with 1. lia.
  - right. destruct (quiet_counts _ (run_fetch_quiet _ _ _ _ _ Hf)) as [Q1 [Q2 Q3]].
    split; [exact Hne|]. split; [exact Q1|]. split; [reflexivity|]. split; [reflexivity|].
    right; left. exists evs. split; [reflexivity|]. split; [exact Q2|]. split; [exact Q3|].
    cbn [p_jobs]. rewrite Hj, !launched_app. unfold launched. destruct ob; simpl; lia.
  - right. destruct (quiet_counts _ (run_enqueue_quiet _ _ _ _ He)) as [Q1 [Q2 Q3]].
    split; [exact Hne|]. split; [exact Q1|]. split; [reflexivity|]. split; [reflexivity|].
    right; right. split; [exact Q2|]. split; [exact Q3|].
    cbn [p_jobs]. rewrite Hj, !launched_app. unfold launched. simpl. lia.
  - right. destruct (quiet_counts _ (worker_step_quiet _ _ _ _ _ Hw)) as [Q1 [Q2 Q3]].
    split; [exact Hne|]. split; [exact Q1|]. split; [reflexivity|]. split; [reflexivity|].
    right; right. repeat split; assumption.
  - right. split; [exact Hne|]. repeat split.
    right; right. repeat split.
Qed.

Lemma pstep_alive cfg p evs p' : pstep cfg p evs p' -> p_main p <> [].
Proof. intro Hs. destruct Hs; try assumption; congruence. Qed.

Lemma in_filter_main x l : In x l -> is_main x = true -> In x (filter is_main l).
Proof. intros H1 H2. apply filter_In. auto. Qed.

(** The events of main in a run are main's own sequence, in its order, and
    what main has still to do is the rest of it. *)
Lemma exec_projection cfg p tr p' :
  exec cfg p tr p' -> forallb is_main (p_main p) = true ->
  filter is_main tr ++ p_main p' = p_main p.
Proof.
  intros He Hm. induction He as [q|q tr q1 evs q2 He IH Hs]; [reflexivity|].
  specialize (IH Hm).
  destruct (pstep_cases _ _ _ _ Hs) as [[e [rest [H1 [-> [H2 _]]]]] | [_ [H1 [H2 _]]]].
  - assert (Hie : is_main e = true).
    { rewrite <- IH, H1, forallb_app in Hm. apply andb_prop in Hm as [_ Hm].
      simpl in Hm. apply andb_prop in Hm as [Hm _]. exact Hm. }
    rewrite filter_app, <- app_assoc, H2. simpl. rewrite Hie. simpl.
    rewrite <- H1. exact IH.
  - rewrite filter_app, H1, app_nil_r, H2. exact IH.
Qed.

Lemma next_main cfg p0 tr q e rest :
  exec cfg p0 tr q -> forallb is_main (p_main p0) = true -> p_main q = e :: rest ->
  is_main e = true /\ filter is_main tr ++ e :: rest = p_main p0.
Proof.
  intros He Hm Hq. pose proof (exec_projection _ _ _ _ He Hm) as Hp. rewrite Hq in Hp.
  split; [|exact Hp].
  rewrite <- Hp, forallb_app in Hm. apply andb_prop in Hm as [_ Hm].
  simpl in Hm. apply andb_prop in Hm as [Hm _]. exact Hm.
Qed.

Lemma main_ev_counts e : is_main e = true -> ticks [e] = 0 /\ fires [e] = 0.
Proof. intro H. destruct e; try discriminate; split; reflexivity. Qed.

(** Every start of Job.Run uses up one launch by the scheduler. *)
Lemma launch_count cfg p0 tr p :
  exec cfg p0 tr p -> forallb is_main (p_main p0) = true ->
  ticks tr + launched (p_jobs p) = fires tr + launched (p_jobs p0).
Proof.
  intros He Hm. induction He as [q|q tr q1 evs q2 He IH Hs]; [reflexivity|].
  specialize (IH Hm). rewrite ticks_app, fires_app.
  destruct (pstep_cases _ _ _ _ Hs)
    as [[e [rest [H1 [-> [_ [_ H4]]]]]]
       | [_ [_ [_ [_ [[-> [_ H4]] | [[r [-> [H4 [H5 H6]]]] | [H4 [H5 H6]]]]]]]]].
  - destruct (main_ev_counts e (proj1 (next_main _ _ _ _ _ _ He Hm H1))) as [T F].
    rewrite T, F, H4. lia.
  - change (ticks [EvCronFire]) with 0. change (fires [EvCronFire]) with 1. lia.
  - change (ticks (EvJobTick :: r)) with (S (ticks r)).
    change (fires (EvJobTick :: r)) with (fires r). lia.
  - lia.
Qed.

(** With the scheduler never started, nothing is launched and Job.Run
    never runs. *)
Lemma never_started_inv cfg p0 tr p :
  exec cfg p0 tr p ->
  ~ In EvCronStart (p_main p0) -> forallb is_main (p_main p0) = true ->
  p_cron p0 = false -> launched (p_jobs p0) = 0 ->
  ~ In EvCronStart (p_main p) /\ p_cron p = false /\ launched (p_jobs p) = 0
  /\ ticks tr = 0 /\ fires tr = 0.
Proof.
  intro He. induction He as [q|q tr q1 evs q2 He IH Hs]; intros H1 Hm H3 H4.
  - repeat split; assumption.
  - destruct (IH H1 Hm H3 H4) as [I1 [I2 [I3 [I4 I5]]]].
    rewrite ticks_app, fires_app, I4, I5.
    destruct (pstep_cases _ _ _ _ Hs)
      as [[e [rest [Hq [-> [Hr [Hc Hj]]]]]]
         | [_ [_ [Hr [Hc [[_ [Hc' _]] | [[r [-> [Ht [Hf Hl]]]] | [Ht [Hf Hl]]]]]]]]].
    + destruct (main_ev_counts e (proj1 (next_main _ _ _ _ _ _ He Hm Hq))) as [T F].
      rewrite Hq in I1. rewrite Hr, Hc, Hj, T, F.
      split; [intro H; apply I1; right; exact H|].
      split; [destruct e; try reflexivity; try exact I2; exfalso; apply I1; left; reflexivity|].
      split; [exact I3|]. split; reflexivity.
    + rewrite I2 in Hc'. discriminate.
    + rewrite I3 in Hl. discriminate.
    + rewrite Hr, Hc, Hl, Ht, Hf. repeat split; assumption.
Qed.

(** When main never starts the scheduler, no run calls Job.Run. *)
Lemma never_started_no_job env c0 tr p :
  ~ In EvCronStart (main env) -> exec (mail_config env) (init env c0) tr p -> ~ In EvJobTick tr.
Proof.
  intros Hn He Hin.
  destruct (never_started_inv _ _ _ _ He Hn (main_is_main env) eq_refl eq_refl) as [_ [_ [_ [T _]]]].
  pose proof (in_ticks _ Hin). lia.
Qed.

Lemma in_suffix x X Y : X ++ x :: Y = main_ok_trace -> In x main_ok_trace.
Proof. intro H. rewrite <- H. apply in_or_app. right. left. reflexivity. Qed.

Lemma ok_trace_main e : In e main_ok_trace -> is_main e = true.
Proof. intro H. simpl in H. repeat destruct H as [<-|H]; try reflexivity. destruct H. Qed.

Lemma cron_on_next n :
  n < 20 ->
  match nth n main_ok_trace EvJobTick with
  | EvCronStart => true | EvCronStop => false | _ => cron_on n end = cron_on (S n).
Proof. intro H. do 20 (destruct n as [|n]; [reflexivity|]). lia. Qed.

(** After a successful start-up, the scheduler runs exactly while main is
    between cron.Start and cj.Stop. *)
Lemma cron_window cfg p0 tr p :
  p_main p0 = main_ok_trace -> p_cron p0 = false -> exec cfg p0 tr p ->
  p_cron p = cron_on (List.length (filter is_main tr)).
Proof.
  intros Hm Hc He. induction He as [q|q tr q1 evs q2 He IH Hs]; [exact Hc|].
  specialize (IH Hm Hc).
  assert (Hp : filter is_main tr ++ p_main q1 = main_ok_trace).
  { rewrite <- Hm. apply (exec_projection cfg). exact He. rewrite Hm. reflexivity. }
  destruct (pstep_cases _ _ _ _ Hs)
    as [[e [rest [H1 [-> [H2 [H3 _]]]]]] | [_ [H1 [H2 [H3 _]]]]].
  - rewrite H1 in Hp.
    assert (Hie : is_main e = true) by exact (ok_trace_main e (in_suffix _ _ _ Hp)).
    assert (Hlen : List.length (filter is_main tr) < 20).
    { apply (f_equal (@List.length _)) in Hp. rewrite length_app in Hp. simpl in Hp. lia. }
    assert (Hn : e = nth (List.length (filter is_main tr)) main_ok_trace EvJobTick)
      by (rewrite <- Hp, nth_middle; reflexivity).
    rewrite H3, filter_app. simpl. rewrite Hie, length_app, IH. simpl.
    rewrite Nat.add_1_r, <- (cron_on_next _ Hlen), <- Hn. reflexivity.
  - rewrite H3, filter_app, H1, app_nil_r. exact IH.
Qed.

Lemma split_snoc {A} (tr evs pre post : list A) x :
  tr ++ evs = pre ++ x :: post ->
  (exists post', tr = pre ++ x :: post') \/ (exists l, evs = l ++ x :: post /\ pre = tr ++ l).
Proof.
  intro H. destruct (app_eq_app _ _ _ _ H) as [l [[H1 H2]|[H1 H2]]].
  - destruct l as [|y l].
    + right. exists []. rewrite app_nil_r in H1. simpl in H2. subst.
      split; [reflexivity|]. rewrite app_nil_r. reflexivity.
    + left. injection H2 as <- _. exists l. exact H1.
  - right. exists l. split; assumption.
Qed.

(** An event of a run is emitted by one step, from a state the run
    reaches with the events before that step. *)
Lemma exec_split cfg p0 tr p pre x post :
  exec cfg p0 tr p -> tr = pre ++ x :: post ->
  exists tr1 q evs q' l post', exec cfg p0 tr1 q /\ pstep cfg q evs q'
    /\ evs = l ++ x :: post' /\ pre = tr1 ++ l.
Proof.
  intro He. revert pre post.
  induction He as [q|q tr q1 evs q2 He IH Hs]; intros pre post Ht.
  - destruct pre; discriminate.
  - destruct (split_snoc _ _ _ _ _ Ht) as [[post' Ht']|[l [Hl Hpre]]].
    + exact (IH pre post' Ht').
    + exists tr, q1, evs, q2, l, post. exact (conj He (conj Hs (conj Hl Hpre))).
Qed.

Lemma single_split {A} (y x : A) l post : [y] = l ++ x :: post -> l = [] /\ x = y.
Proof.
  intro H. destruct l as [|z l]; simpl in H; injection H as H1 H2.
  - split; [reflexivity | symmetry; exact H1].
  - destruct l; discriminate.
Qed.

(** Job.Run starts only in a launched goroutine. *)
Lemma tick_step cfg p0 tr p pre post :
  exec cfg p0 tr p -> forallb is_main (p_main p0) = true -> tr = pre ++ EvJobTick :: post ->
  exists q, exec cfg p0 pre q /\ 0 < launched (p_jobs q).
Proof.
  intros He Hm Ht.
  destruct (exec_split _ _ _ _ _ _ _ He Ht)
    as (tr1 & q & evs & q' & l & post' & He1 & Hs & Hevs & Hpre).
  destruct (pstep_cases _ _ _ _ Hs)
    as [[e [rest [H1 [Hev _]]]]
       | [_ [_ [_ [_ [[Hev _] | [[r [Hev [Hr [_ Hl]]]] | [Ht0 _]]]]]]]].
  - rewrite Hev in Hevs. destruct (single_split _ _ _ _ Hevs) as [_ Hx]. subst e.
    destruct (next_main _ _ _ _ _ _ He1 Hm H1) as [Hie _]. discriminate.
  - rewrite Hev in Hevs. destruct (single_split _ _ _ _ Hevs) as [_ Hx]. discriminate.
  - rewrite Hev in Hevs. destruct l as [|z l].
    + rewrite app_nil_r in Hpre. subst pre. exists q. split; [exact He1 | lia].
    + injection Hevs as _ Hr'. exfalso.
      assert (Hin : In EvJobTick r) by (rewrite Hr'; apply in_or_app; right; left; reflexivity).
      pose proof (in_ticks _ Hin). lia.
  - exfalso.
    assert (Hin : In EvJobTick evs) by (rewrite Hevs; apply in_or_app; right; left; reflexivity).
    pose proof (in_ticks _ Hin). lia.
Qed.

(** The scheduler launches Job.Run only while it runs. *)
Lemma fire_step cfg p0 tr p pre post :
  exec cfg p0 tr p -> forallb is_main (p_main p0) = true -> tr = pre ++ EvCronFire :: post ->
  exists q, exec cfg p0 pre q /\ p_cron q = true.
Proof.
  intros He Hm Ht.
  destruct (exec_split _ _ _ _ _ _ _ He Ht)
    as (tr1 & q & evs & q' & l & post' & He1 & Hs & Hevs & Hpre).
  destruct (pstep_cases _ _ _ _ Hs)
    as [[e [rest [H1 [Hev _]]]]
       | [_ [_ [_ [_ [[Hev [Hc _]] | [[r [Hev [_ [Hf _]]]] | [_ [Hf _]]]]]]]]].
  - rewrite Hev in Hevs. destruct (single_split _ _ _ _ Hevs) as [_ Hx]. subst e.
    destruct (next_main _ _ _ _ _ _ He1 Hm H1) as [Hie _]. discriminate.
  - rewrite Hev in Hevs. destruct (single_split _ _ _ _ Hevs) as [Hl _]. subst l.
    rewrite app_nil_r in Hpre. subst pre. exists q. split; [exact He1 | exact Hc].
  - rewrite Hev in Hevs. destruct l as [|z l]; simpl in Hevs; injection Hevs as Hz Hr'; [discriminate|].
    exfalso.
    assert (Hin : In EvCronFire r) by (rewrite Hr'; apply in_or_app; right; left; reflexivity).
    pose proof (in_fires _ Hin). lia.
  - exfalso.
    assert (Hin : In EvCronFire evs) by (rewrite Hevs; apply in_or_app; right; left; reflexivity).
    pose proof (in_fires _ Hin). lia.
Qed.

Lemma prefix_firstn X Y : X ++ Y = main_ok_trace -> X = firstn (List.length X) main_ok_trace.
Proof.
  intro H. rewrite <- H, firstn_app, Nat.sub_diag, firstn_O, app_nil_r, firstn_all. reflexivity.
Qed.

Lemma prefix_len X Y : X ++ Y = main_ok_trace -> List.length X <= 20.
Proof. intro H. apply (f_equal (@List.length _)) in H. rewrite length_app in H. simpl in H. lia. Qed.

Lemma prefix_stopped X Y :
  X ++ Y = main_ok_trace -> In EvCronStop X -> cron_on (List.length X) = false.
Proof.
  intros H Hin. rewrite (prefix_firstn X Y H) in Hin. pose proof (prefix_len X Y H) as Hl.
  remember (List.length X) as n eqn:En. clear En H.
  do 21 (destruct n as [|n]; [vm_compute in Hin; vm_compute; intuition discriminate|]). lia.
Qed.

Lemma prefix_started X Y :
  X ++ Y = main_ok_trace -> cron_on (List.length X) = true ->
  In EvOpenSQL X /\ In EvNewCollector X /\ In EvMailerRun X /\ In EvCronStart X.
Proof.
  intros H Hc. rewrite (prefix_firstn X Y H).
  unfold cron_on in Hc. apply andb_true_iff in Hc as [H1 H2].
  apply Nat.leb_le in H1. apply Nat.leb_le in H2.
  assert (Hn : List.length X = 12 \/ List.length X = 13 \/ List.length X = 14) by lia.
  destruct Hn as [-> | [-> | ->]]; vm_compute; repeat split; in_list.
Qed.


Lemma exit_last X k rest : X ++ EvExit k :: rest = main_ok_trace -> k = 0 /\ rest = [].
Proof.
  intro H.
  assert (Hl : main_ok_trace = firstn 19 main_ok_trace ++ [EvExit 0]) by reflexivity.
  rewrite Hl in H. clear Hl.
  induction rest as [|r rest' _] using rev_ind.
  - apply app_inj_tail in H. destruct H as [_ H]. injection H as ->. auto.
  - rewrite app_comm_cons, app_assoc in H. apply app_inj_tail in H.
    destruct H as [H _].
    assert (Hin : In (EvExit k) (firstn 19 main_ok_trace))
      by (rewrite <- H; apply in_or_app; right; left; reflexivity).
    simpl in Hin. intuition discriminate.
Qed.

(** The process ends only by main's os.Exit: once an exit event is in the
    run, main has performed its whole sequence and the status is 0. *)
Lemma exit_inv cfg p0 tr p k :
  p_main p0 = main_ok_trace -> exec cfg p0 tr p -> In (EvExit k) tr ->
  k = 0 /\ p_main p = [].
Proof.
  intros Hm He. revert Hm.
  induction He as [q|q tr q1 evs q2 He IH Hs]; intros Hm Hin; [destruct Hin|].
  apply in_app_or in Hin. destruct Hin as [Hin|Hin].
  - destruct (IH Hm Hin) as [_ H]. exfalso. exact (pstep_alive _ _ _ _ Hs H).
  - assert (Hp : filter is_main tr ++ p_main q1 = main_ok_trace).
    { rewrite <- Hm. apply (exec_projection cfg). exact He. rewrite Hm. reflexivity. }
    destruct (pstep_cases _ _ _ _ Hs) as [[e [rest [Hq [-> [Hr _]]]]] | [_ [Hf _]]].
    + destruct Hin as [->|[]]. rewrite Hq in Hp. rewrite Hr.
      exact (exit_last _ _ _ Hp).
    + pose proof (in_filter_main _ _ Hin eq_refl) as H. rewrite Hf in H. destruct H.
Qed.


Lemma main_cons cfg e rest c t cr st dc J tr p2 :
  exec cfg (main_effect cfg e (mkProc rest c t cr st dc J)) tr p2 ->
  exec cfg (mkProc (e :: rest) c t cr st dc J) (e :: tr) p2.
Proof.
  intro H.
  exact (exec_cons cfg _ [e] _ tr p2
           (step_main cfg (mkProc (e :: rest) c t cr st dc J) e rest eq_refl) H).
Qed.

Lemma launch_cons cfg m c t st dc J tr p2 :
  m <> [] -> exec cfg (mkProc m c t true st dc (J ++ [JobLaunched])) tr p2 ->
  exec cfg (mkProc m c t true st dc J) (EvCronFire :: tr) p2.
Proof.
  intros Hm H.
  exact (exec_cons cfg _ [EvCronFire] _ tr p2
           (step_launch cfg (mkProc m c t true st dc J) Hm eq_refl) H).
Qed.

Lemma fetch_cons cfg m c t cr st dc J1 J2 f c' ob evs tr p2 :
  m <> [] -> (dc = true -> f = QueryFault) -> Job.Run_fetch f c = (c', ob, evs) ->
  exec cfg (mkProc m c' t cr st dc
              (J1 ++ match ob with Some b => [JobFetched b] | None => [] end ++ J2)) tr p2 ->
  exec cfg (mkProc m c t cr st dc (J1 ++ JobLaunched :: J2)) (EvJobTick :: evs ++ tr) p2.
Proof.
  intros Hm Hd Hf H.
  exact (exec_cons cfg _ (EvJobTick :: evs) _ tr p2
           (step_fetch cfg (mkProc m c t cr st dc (J1 ++ JobLaunched :: J2)) J1 J2 f c' ob evs
              Hm eq_refl Hd Hf) H).
Qed.

Lemma enqueue_cons cfg m c t cr st dc J1 b J2 t' evs tr p2 :
  m <> [] -> Job.Run_enqueue b t = (t', evs) ->
  exec cfg (mkProc m c t' cr st dc (J1 ++ J2)) tr p2 ->
  exec cfg (mkProc m c t cr st dc (J1 ++ JobFetched b :: J2)) (evs ++ tr) p2.
Proof.
  intros Hm He H.
  exact (exec_cons cfg _ evs _ tr p2
           (step_enqueue cfg (mkProc m c t cr st dc (J1 ++ JobFetched b :: J2)) J1 b J2 t' evs
              Hm eq_refl He) H).
Qed.

Ltac main_step :=
  apply main_cons; cbn [main_effect p_main p_coll p_mail p_cron p_stop p_db_closed p_jobs].

Lemma init_ok : init ok_env scenario
  = mkProc main_ok_trace scenario (New sample_config) false false false [].
Proof. unfold init. rewrite main_ok by reflexivity. reflexivity. Qed.

(** The run [sample_run]: main starts the service, the scheduler launches
    Job.Run, which queues one message, and main shuts down; the worker
    takes no step. *)
Lemma sample_exec : exec sample_config (init ok_env scenario) sample_run sample_end.
Proof.
  rewrite init_ok. unfold sample_run, main_ok_trace. cbn [firstn skipn app].
  do 12 main_step.
  apply launch_cons; [discriminate|]. cbn [app].
  apply (fetch_cons _ _ _ _ _ _ _ [] [] NoFault (mkCollector (db scenario) 2)
           (Some sample_batch) []);
    [discriminate | intro Hd; discriminate Hd | vm_compute; reflexivity |].
  apply (enqueue_cons _ _ _ _ _ _ _ [] sample_batch []
           (mkMailer sample_config Running [Job.render sample_config sample_batch] false)
           [EvEnqueueCall (Job.render sample_config sample_batch);
            EvQueued (Job.render sample_config sample_batch)]);
    [discriminate | vm_compute; reflexivity |].
  do 8 main_step.
  apply exec_nil.
Qed.


End ProcessFacts.

Module MainClaims.
Import Collector Mailer Events MailerImpl Main Process ProcessFacts.

(** C10: a failure of the configuration stage ends the process with
    status 128 after printing its cause and the help text, before any
    component exists.  If config.Load fails, or os.OpenFile of the log
    file fails, the whole run of main is the message with the cause, the
    help text and the exit with 128.  If zerolog.ParseLevel fails, the log
    file has been opened and the logger set; then come the message, the
    help text, the deferred close of the log file and the exit with 128.
    No database connection, collector, mailer, worker, job or scheduler is
    created in any of the three cases. *)
Theorem config_stage_failure_exits_128 env e :
  (load_err env = Some e ->
   main env = [EvPrintf load_config_msg e; EvShowAppHelp; EvExit 128])
  /\ (load_err env = None -> open_log_err env = Some e ->
      main env = [EvPrintf open_log_msg e; EvShowAppHelp; EvExit 128])
  /\ (load_err env = None -> open_log_err env = None -> parse_level_err env = Some e ->
      main env = [EvOpenLogFile; EvSetLogger; EvPrintf parse_level_msg e; EvShowAppHelp;
                  EvLogFileClose; EvExit 128]).
Proof.
  destruct env as [l o pl lv s sr c]; simpl.
  split; [|split].
  - intros ->. reflexivity.
  - intros -> ->. reflexivity.
  - intros -> -> ->. reflexivity.
Qed.

Lemma config_stage_failure_exits_128_witness :
  main (mkEnv (Some "no such file"%string) None None InfoLevel None true sample_config)
    = [EvPrintf load_config_msg "no such file"; EvShowAppHelp; EvExit 128]
  /\ main (mkEnv None (Some "permission denied"%string) None InfoLevel None true sample_config)
    = [EvPrintf open_log_msg "permission denied"; EvShowAppHelp; EvExit 128]
  /\ main (mkEnv None None (Some "unknown level"%string) InfoLevel None true sample_config)
    = [EvOpenLogFile; EvSetLogger; EvPrintf parse_level_msg "unknown level"; EvShowAppHelp;
       EvLogFileClose; EvExit 128].
Proof.
  split; [|split].
  - exact (proj1 (config_stage_failure_exits_128
                    (mkEnv (Some "no such file"%string) None None InfoLevel None true sample_config)
                    "no such file") eq_refl).
  - exact (proj1 (proj2 (config_stage_failure_exits_128
                    (mkEnv None (Some "permission denied"%string) None InfoLevel None true
                       sample_config)
                    "permission denied")) eq_refl eq_refl).
  - exact (proj2 (proj2 (config_stage_failure_exits_128
                    (mkEnv None None (Some "unknown level"%string) InfoLevel None true
                       sample_config)
                    "unknown level")) eq_refl eq_refl eq_refl).
Defined.




(** C9: an unreachable dependency at process start aborts start-up before
    the scheduler runs Job.Run.  When collector.OpenSQL fails, main logs
    the error with log.Fatal and exits with status 1; when zerolog's
    global level disables fatal entries, log.Fatal does nothing, the
    Action returns the error, the deferred logFile.Close runs and main
    exits with status 1.  When the SMTP server cannot be reached, the
    start-up check of m.Run ends the process with status 1 before the job
    and the scheduler are created.  In both cases no run ever calls
    Job.Run.  After a successful start-up, nothing but main ends the
    process: any exit in a run is main's exit with status 0 at the end of
    its whole sequence, after the signal and the shutdown. *)
Theorem startup_failure_policy env c0 :
  (load_err env = None -> open_log_err env = None -> parse_level_err env = None ->
   forall e, open_sql_err env = Some e ->
   main env = [EvOpenLogFile; EvSetLogger; EvSetGlobalLevel; EvMakeStop; EvOpenSQL]
              ++ (if fatal_enabled (log_level env) then [EvLogFatal] else [EvLogFileClose])
              ++ [EvExit 1]
   /\ forall tr p, exec (mail_config env) (init env c0) tr p -> ~ In EvJobTick tr)
  /\ (load_err env = None -> open_log_err env = None -> parse_level_err env = None ->
      open_sql_err env = None -> smtp_reachable env = false ->
      main env = [EvOpenLogFile; EvSetLogger; EvSetGlobalLevel; EvMakeStop; EvOpenSQL;
                  EvNewCollector; EvNewMailer; EvMailerRun; EvMailerFatal; EvExit 1]
      /\ forall tr p, exec (mail_config env) (init env c0) tr p -> ~ In EvJobTick tr)
  /\ (load_err env = None -> open_log_err env = None -> parse_level_err env = None ->
      open_sql_err env = None -> smtp_reachable env = true ->
      forall tr p k, exec (mail_config env) (init env c0) tr p -> In (EvExit k) tr ->
      k = 0 /\ filter is_main tr = main_ok_trace).
Proof.
  split; [|split].
  - intros H1 H2 H3 e H4. split.
    + rewrite main_shape, H1, H2, H3, H4. reflexivity.
    + intros tr p. apply never_started_no_job. apply main_no_cron.
      intros (_ & _ & _ & H & _). rewrite H4 in H. discriminate.
  - intros H1 H2 H3 H4 H5. split.
    + rewrite main_shape, H1, H2, H3, H4, H5. reflexivity.
    + intros tr p. apply never_started_no_job. apply main_no_cron.
      intros (_ & _ & _ & _ & H). rewrite H5 in H. discriminate.
  - intros H1 H2 H3 H4 H5 tr p k He Hin.
    assert (Hm : p_main (init env c0) = main_ok_trace) by exact (main_ok env H1 H2 H3 H4 H5).
    destruct (exit_inv _ _ _ _ _ Hm He Hin) as [Hk Hend].
    split; [exact Hk|].
    rewrite <- Hm, <- (app_nil_r (filter is_main tr)), <- Hend.
    apply (exec_projection (mail_config env)); [exact He|].
    rewrite Hm. reflexivity.
Qed.

Lemma startup_failure_policy_witness :
  (main (mkEnv None None None InfoLevel (Some "connection refused"%string) true sample_config)
     = [EvOpenLogFile; EvSetLogger; EvSetGlobalLevel; EvMakeStop; EvOpenSQL; EvLogFatal; EvExit 1])
  /\ (main (mkEnv None None None Disabled (Some "connection refused"%string) true sample_config)
     = [EvOpenLogFile; EvSetLogger; EvSetGlobalLevel; EvMakeStop; EvOpenSQL; EvLogFileClose;
        EvExit 1])
  /\ (main (mkEnv None None None InfoLevel None false sample_config)
     = [EvOpenLogFile; EvSetLogger; EvSetGlobalLevel; EvMakeStop; EvOpenSQL;
        EvNewCollector; EvNewMailer; EvMailerRun; EvMailerFatal; EvExit 1])
  /\ (0 = 0 /\ filter is_main sample_run = main_ok_trace).
Proof.
  split; [|split; [|split]].
  - exact (proj1 (proj1 (startup_failure_policy
             (mkEnv None None None InfoLevel (Some "connection refused"%string) true sample_config)
             scenario) eq_refl eq_refl eq_refl "connection refused"%string eq_refl)).
  - exact (proj1 (proj1 (startup_failure_policy
             (mkEnv None None None Disabled (Some "connection refused"%string) true sample_config)
             scenario) eq_refl eq_refl eq_refl "connection refused"%string eq_refl)).
  - exact (proj1 (proj1 (proj2 (startup_failure_policy
             (mkEnv None None None InfoLevel None false sample_config) scenario))
             eq_refl eq_refl eq_refl eq_refl eq_refl)).
  - apply (proj2 (proj2 (startup_failure_policy ok_env scenario))
             eq_refl eq_refl eq_refl eq_refl eq_refl sample_run sample_end 0 sample_exec).
    vm_compute. repeat first [left; reflexivity | right].
Defined.

End MainClaims.

(* ------------------------------------------------------------------ *)
(** ** Go's path.Join and path.Clean: the cleaning loop *)

Module GoPathFacts.
Import GoPath.

Definition dd_of (rooted : bool) (k : nat) : nat :=
  if rooted then 1 else match k with 0 => 0 | S k' => 3 * k' + 2 end.

Definition Inv (rooted : bool) (st : list ascii * nat) : Prop :=
  exists k E,
    fst st = rev (render rooted (repeat [dot; dot] k ++ E))
    /\ (rooted = true -> k = 0)
    /\ snd st = dd_of rooted k
    /\ forallb is_plain_elem E = true.

Lemma eqb_slash c : Ascii.eqb c slash = true <-> c = slash.
Proof. apply Ascii.eqb_eq. Qed.

Lemma plain_elem_spec e :
  is_plain_elem e = true <-> (e <> [] /\ ~ In slash e /\ e <> [dot] /\ e <> [dot; dot]).
Proof.
  split.
  - destruct e as [|c [|d [|x e]]]; intro H; [discriminate|simpl in H|simpl in H|].
    + apply andb_prop in H as [H1 H2]. apply negb_true_iff in H1, H2.
      repeat split; try discriminate.
      * intros [H|[]]. subst. rewrite Ascii.eqb_refl in H1. discriminate.
      * intro H. injection H as ->. rewrite Ascii.eqb_refl in H2. discriminate.
    + apply andb_prop in H as [H H3]. apply andb_prop in H as [H1 H2].
      apply negb_true_iff in H1, H2, H3.
      repeat split; try discriminate.
      * intros [H|[H|[]]]; subst; [rewrite Ascii.eqb_refl in H1|rewrite Ascii.eqb_refl in H2];
          discriminate.
      * intro H. injection H as -> ->. rewrite Ascii.eqb_refl in H3. discriminate.
    + change (forallb (fun c => negb (Ascii.eqb c slash)) (c :: d :: x :: e) = true) in H.
      repeat split; try discriminate.
      intro Hin. rewrite forallb_forall in H. specialize (H slash Hin).
      vm_compute in H. discriminate H.
  - intros (H1 & H2 & H3 & H4).
    assert (Hc : forall c, In c e -> Ascii.eqb c slash = false).
    { intros c Hc. apply Bool.not_true_iff_false. intro H. apply eqb_slash in H.
      subst. contradiction. }
    destruct e as [|c [|d [|x e]]]; [contradiction| | |].
    + simpl. rewrite (Hc c (or_introl eq_refl)). simpl.
      destruct (Ascii.eqb c dot) eqn:E; [|reflexivity].
      apply Ascii.eqb_eq in E. subst. contradiction.
    + simpl. rewrite (Hc c (or_introl eq_refl)), (Hc d (or_intror (or_introl eq_refl))). simpl.
      destruct (Ascii.eqb c dot) eqn:E1, (Ascii.eqb d dot) eqn:E2; try reflexivity.
      apply Ascii.eqb_eq in E1, E2. subst. contradiction.
    + unfold is_plain_elem. apply forallb_forall. intros y Hy.
      rewrite (Hc y Hy). reflexivity.
Qed.

Lemma join_snoc P x :
  join_elems (P ++ [x]) = match P with [] => x | _ => join_elems P ++ slash :: x end.
Proof.
  induction P as [|a P IH]; [reflexivity|].
  simpl. rewrite IH. destruct P as [|b P]; [reflexivity|].
  simpl. destruct (P ++ [x]) eqn:E; [destruct P; discriminate|].
  rewrite <- app_assoc. reflexivity.
Qed.


Lemma join_app A B :
  A <> [] -> B <> [] -> join_elems (A ++ B) = join_elems A ++ slash :: join_elems B.
Proof.
  intros HA HB. induction A as [|a A IH]; [contradiction|].
  destruct A as [|a' A].
  - simpl. destruct B; [contradiction|reflexivity].
  - change ((a :: a' :: A) ++ B) with (a :: ((a' :: A) ++ B)).
    change (join_elems (a :: ((a' :: A) ++ B))) with (a ++ slash :: join_elems ((a' :: A) ++ B)).
    rewrite IH by discriminate.
    change (join_elems (a :: a' :: A)) with (a ++ slash :: join_elems (a' :: A)).
    rewrite <- app_assoc. reflexivity.
Qed.

Lemma join_nil P : (forall e, In e P -> e <> []) -> join_elems P = [] -> P = [].
Proof.
  intros H HP. destruct P as [|e [|e' P]]; [reflexivity| |].
  - simpl in HP. exfalso. exact (H e (or_introl eq_refl) HP).
  - simpl in HP. destruct e; [exact (False_ind _ (H [] (or_introl eq_refl) eq_refl))|discriminate].
Qed.

Lemma plain_nonempty E e : forallb is_plain_elem E = true -> In e E -> e <> [].
Proof.
  intros H He. rewrite forallb_forall in H. apply plain_elem_spec, H, He.
Qed.

Lemma elems_nonempty k E e :
  forallb is_plain_elem E = true -> In e (repeat [dot; dot] k ++ E) -> e <> [].
Proof.
  intros H He. apply in_app_or in He. destruct He as [He|He].
  - apply repeat_spec in He. subst. discriminate.
  - exact (plain_nonempty E e H He).
Qed.

Lemma join_len_pos P : (forall e, In e P -> e <> []) -> P <> [] -> 0 < List.length (join_elems P).
Proof.
  intros H HP. destruct (join_elems P) eqn:E; [|simpl; lia].
  exfalso. exact (HP (join_nil P H E)).
Qed.

Lemma join_repeat_len k : List.length (join_elems (repeat [dot; dot] k)) = dd_of false k.
Proof.
  induction k as [|k IH]; [reflexivity|].
  destruct k as [|k]; [reflexivity|].
  change (repeat [dot; dot] (S (S k))) with ([[dot; dot]] ++ repeat [dot; dot] (S k)).
  rewrite join_app by discriminate. rewrite length_app. simpl in IH |- *. rewrite IH. lia.
Qed.

Lemma render_len r k E :
  (r = true -> k = 0) -> forallb is_plain_elem E = true ->
  List.length (render r (repeat [dot; dot] k ++ E))
  = dd_of r k + (match E with [] => 0 | _ => (if r then 0 else match k with 0 => 0 | _ => 1 end)
                                              + List.length (join_elems E) end).
Proof.
  intros Hk HE. destruct r.
  - rewrite (Hk eq_refl). simpl. destruct E; reflexivity.
  - simpl. destruct k as [|k].
    + destruct E; reflexivity.
    + destruct E as [|e E].
      * rewrite app_nil_r, join_repeat_len. simpl. lia.
      * rewrite join_app by discriminate. rewrite length_app. simpl List.length at 2.
        rewrite join_repeat_len. simpl. lia.
Qed.

Lemma lt_iff r k E :
  (r = true -> k = 0) -> forallb is_plain_elem E = true ->
  (dd_of r k <? List.length (rev (render r (repeat [dot; dot] k ++ E)))) = true <-> E <> [].
Proof.
  intros Hk HE. rewrite length_rev, render_len by assumption.
  rewrite Nat.ltb_lt. destruct E as [|e E]; [split; [lia|congruence]|].
  split; [discriminate|intros _].
  assert (0 < List.length (join_elems (e :: E))).
  { apply join_len_pos; [|discriminate]. intros x Hx. exact (plain_nonempty _ _ HE Hx). }
  lia.
Qed.

Lemma bt_name dd y rest :
  y <> [] -> (forall c, In c y -> c <> slash) -> dd <= List.length rest ->
  backtrack dd (y ++ rest) = if dd <? List.length rest then backtrack dd rest else rest.
Proof.
  intros Hy Hs Hd. induction y as [|c y IH]; [contradiction|].
  simpl. assert (Hc : Ascii.eqb c slash = false).
  { apply Bool.not_true_iff_false. intro H. apply eqb_slash in H. exact (Hs c (or_introl eq_refl) H). }
  rewrite Hc. simpl. rewrite andb_true_r.
  destruct y as [|c' y].
  - reflexivity.
  - rewrite length_app. simpl.
    assert (Hlt : (dd <? S (List.length y + List.length rest)) = true) by (apply Nat.ltb_lt; lia).
    rewrite Hlt. apply IH; [discriminate|]. intros x Hx. apply Hs. right. exact Hx.
Qed.

Lemma bt_slash dd r : backtrack dd (slash :: r) = r.
Proof. simpl. rewrite andb_false_r. reflexivity. Qed.

Lemma render_snoc r P x :
  P <> [] -> render r (P ++ [x]) = render r P ++ slash :: x.
Proof.
  intro HP. unfold render. rewrite join_snoc. destruct P; [contradiction|].
  destruct r; reflexivity.
Qed.

Lemma no_slash_plain e : is_plain_elem e = true -> forall c, In c e -> c <> slash.
Proof. intros H c Hc ->. apply plain_elem_spec in H. destruct H as (_ & H & _). exact (H Hc). Qed.

Lemma no_slash_rev e : is_plain_elem e = true -> forall c, In c (rev e) -> c <> slash.
Proof. intros H c Hc. apply (no_slash_plain e H). apply in_rev. exact Hc. Qed.

Lemma rev_plain_nonempty e : is_plain_elem e = true -> rev e <> [].
Proof.
  intros H Hr. apply plain_elem_spec in H. destruct H as [H _].
  apply H. rewrite <- (rev_involutive e), Hr. reflexivity.
Qed.

Lemma rev_render_snoc r P x :
  P <> [] -> rev (render r (P ++ [x])) = rev x ++ slash :: rev (render r P).
Proof.
  intro HP. rewrite render_snoc by exact HP. rewrite rev_app_distr. simpl.
  rewrite <- app_assoc. reflexivity.
Qed.

(** Popping the last element, as the ".." case does. *)
Lemma pop_elem r k E :
  (r = true -> k = 0) -> forallb is_plain_elem E = true -> E <> [] ->
  exists E', forallb is_plain_elem E' = true
    /\ backtrack (dd_of r k) (rev (render r (repeat [dot; dot] k ++ E)))
       = rev (render r (repeat [dot; dot] k ++ E')).
Proof.
  intros Hk HE HE0.
  destruct (exists_last HE0) as [E0 [x ->]].
  pose proof HE as HEfull.
  rewrite forallb_app in HE. apply andb_prop in HE as [HE0' Hx]. simpl in Hx.
  rewrite andb_true_r in Hx.
  exists E0. split; [exact HE0'|].
  rewrite app_assoc.
  destruct (repeat [dot; dot] k ++ E0) as [|q Q] eqn:HP.
  - apply app_eq_nil in HP as [Hrep ->]. destruct k; [|discriminate]. clear Hrep.
    unfold render. destruct r; simpl.
    + rewrite bt_name; [reflexivity|apply rev_plain_nonempty, Hx|apply no_slash_rev, Hx|simpl; lia].
    + rewrite <- (app_nil_r (rev x)).
      rewrite bt_name; [reflexivity|apply rev_plain_nonempty, Hx|apply no_slash_rev, Hx|simpl; lia].
  - rewrite <- HP. rewrite rev_render_snoc by (rewrite HP; discriminate).
    rewrite bt_name; [|apply rev_plain_nonempty, Hx|apply no_slash_rev, Hx|].
    + assert (Hl : (dd_of r k <? List.length (slash :: rev (render r (repeat [dot; dot] k ++ E0)))) = true).
      { apply Nat.ltb_lt. simpl. rewrite length_rev, render_len by assumption. lia. }
      rewrite Hl. apply bt_slash.
    + simpl. rewrite length_rev, render_len by assumption. lia.
Qed.


Lemma span_elem_spec l n rest :
  span_elem l = (n, rest) ->
  l = n ++ rest /\ (forall c, In c n -> c <> slash) /\ (rest = [] \/ exists r, rest = slash :: r).
Proof.
  revert n rest. induction l as [|c l IH]; intros n rest H.
  - injection H as <- <-. split; [reflexivity|]. split; [intros c []|left; reflexivity].
  - simpl in H. destruct (Ascii.eqb c slash) eqn:Hc.
    + injection H as <- <-. apply eqb_slash in Hc. subst.
      split; [reflexivity|]. split; [intros c []|right; exists l; reflexivity].
    + destruct (span_elem l) as [n' r'] eqn:Hs. injection H as <- <-.
      destruct (IH n' r' eq_refl) as (H1 & H2 & H3).
      split; [simpl; rewrite H1; reflexivity|]. split; [|exact H3].
      intros x [<-|Hx]; [|exact (H2 x Hx)].
      intro E. subst. rewrite Ascii.eqb_refl in Hc. discriminate.
Qed.

Lemma span_elem_plain c rest n r :
  Ascii.eqb c slash = false ->
  (Ascii.eqb c dot && sep_or_end rest) = false ->
  (Ascii.eqb c dot && dot_sep_or_end rest) = false ->
  span_elem (c :: rest) = (n, r) ->
  is_plain_elem n = true /\ List.length r < S (List.length rest).
Proof.
  intros Hs Hd Hdd Hsp.
  destruct (span_elem_spec _ _ _ Hsp) as (Hl & Hn & Hr).
  simpl in Hsp. rewrite Hs in Hsp.
  destruct (span_elem rest) as [n' r'] eqn:Hsp'. injection Hsp as <- <-.
  destruct (span_elem_spec _ _ _ Hsp') as (Hl' & _ & Hr').
  split.
  - apply plain_elem_spec. split; [discriminate|]. split; [intro H; exact (Hn slash H eq_refl)|].
    split.
    + intro E. injection E as -> ->. rewrite Hl' in Hd.
      destruct Hr' as [->|[x ->]]; simpl in Hd; discriminate.
    + intro E. injection E as -> ->. rewrite Hl' in Hdd.
      destruct Hr' as [->|[x ->]]; simpl in Hdd; discriminate.
  - rewrite Hl', length_app. lia.
Qed.

Lemma repeat_snoc {A} (a : A) k : repeat a (S k) = repeat a k ++ [a].
Proof. induction k as [|k IH]; [reflexivity|]. simpl in *. rewrite IH. reflexivity. Qed.

(** The default case: the element is appended, after a slash unless the
    output is empty or the root. *)
Lemma push_name r k E name :
  (r = true -> k = 0) -> forallb is_plain_elem E = true -> is_plain_elem name = true ->
  rev name ++
    (if (r && negb (List.length (rev (render r (repeat [dot; dot] k ++ E))) =? 1))
        || (negb r && negb (List.length (rev (render r (repeat [dot; dot] k ++ E))) =? 0))
     then slash :: rev (render r (repeat [dot; dot] k ++ E))
     else rev (render r (repeat [dot; dot] k ++ E)))
  = rev (render r (repeat [dot; dot] k ++ E ++ [name])).
Proof.
  intros Hk HE Hn. rewrite length_rev, app_assoc.
  assert (Hne : forall e, In e (repeat [dot; dot] k ++ E) -> e <> [])
    by (intros e; apply elems_nonempty, HE).
  destruct (repeat [dot; dot] k ++ E) as [|q Q] eqn:HP.
  - destruct r; simpl; [|rewrite app_nil_r]; reflexivity.
  - rewrite <- HP in *. rewrite rev_render_snoc by (rewrite HP; discriminate).
    assert (Hpos := join_len_pos _ Hne ltac:(rewrite HP; discriminate)).
    destruct r; unfold render; simpl List.length.
    + destruct (S (List.length (join_elems (repeat [dot; dot] k ++ E))) =? 1) eqn:Hx;
        [apply Nat.eqb_eq in Hx; lia|reflexivity].
    + destruct (List.length (join_elems (repeat [dot; dot] k ++ E)) =? 0) eqn:Hx;
        [apply Nat.eqb_eq in Hx; lia|reflexivity].
Qed.

(** The ".." case on a relative path with nothing to pop: ".." is appended. *)
Lemma push_dotdot k :
  let rout := rev (render false (repeat [dot; dot] k ++ [])) in
  dot :: dot :: (if 0 <? List.length rout then slash :: rout else rout)
  = rev (render false (repeat [dot; dot] (S k) ++ []))
  /\ List.length (dot :: dot :: (if 0 <? List.length rout then slash :: rout else rout))
     = dd_of false (S k).
Proof.
  cbv zeta. unfold render. rewrite !app_nil_r, length_rev, join_repeat_len.
  destruct k as [|k]; [split; reflexivity|].
  assert (Hp : (0 <? dd_of false (S k)) = true) by (apply Nat.ltb_lt; simpl; lia). rewrite Hp.
  split.
  - rewrite (repeat_snoc _ (S k)), join_snoc. cbn [repeat].
    rewrite rev_app_distr. reflexivity.
  - cbn [List.length]. rewrite length_rev, join_repeat_len. simpl. lia.
Qed.

(** The loop keeps the output in the shape of a cleaned path. *)
Lemma loop_inv fuel r path rout dd :
  Inv r (rout, dd) -> Inv r (clean_loop fuel r path rout dd).
Proof.
  revert path rout dd. induction fuel as [|fuel IH]; intros path rout dd H; [exact H|].
  destruct path as [|c rest]; [exact H|]. simpl.
  destruct (Ascii.eqb c slash) eqn:Hs; [apply IH, H|].
  destruct (Ascii.eqb c dot && sep_or_end rest) eqn:Hd; [apply IH, H|].
  destruct H as (k & E & Hr & Hk & Hdd' & HE). simpl in Hr, Hdd'. subst dd rout.
  destruct (Ascii.eqb c dot && dot_sep_or_end rest) eqn:Hdd.
  - destruct (dd_of r k <? List.length (rev (render r (repeat [dot; dot] k ++ E)))) eqn:Hlt.
    + apply IH. apply lt_iff in Hlt; [|exact Hk|exact HE].
      destruct (pop_elem r k E Hk HE Hlt) as (E' & HE' & Hb).
      exists k, E'. simpl. rewrite Hb. auto.
    + destruct r; simpl.
      * apply IH. exists k, E. auto.
      * assert (E = []).
        { destruct E; [reflexivity|]. exfalso.
          assert (Hne : l :: E <> []) by discriminate.
          apply (lt_iff false k (l :: E) Hk HE) in Hne. congruence. }
        subst E. destruct (push_dotdot k) as [H1 H2].
        apply IH. exists (S k), []. simpl in H1, H2 |- *.
        rewrite H1, H2. repeat split; try reflexivity. discriminate.
  - destruct (span_elem rest) as [n' rest2] eqn:Hsp'.
    assert (Hsp : span_elem (c :: rest) = (c :: n', rest2)) by (simpl; rewrite Hs, Hsp'; reflexivity).
    destruct (span_elem_plain c rest _ rest2 Hs Hd Hdd Hsp) as [Hn _].
    apply IH. exists k, (E ++ [c :: n']). cbn [fst snd]. rewrite push_name by assumption.
    repeat split; auto. rewrite forallb_app, HE. cbn [forallb]. rewrite Hn. reflexivity.
Qed.

Lemma loop_nil fuel r rout dd : clean_loop fuel r [] rout dd = (rout, dd).
Proof. destruct fuel; reflexivity. Qed.

Lemma loop_slash fuel r rest rout dd :
  clean_loop (S fuel) r (slash :: rest) rout dd = clean_loop fuel r rest rout dd.
Proof. reflexivity. Qed.

Lemma loop_step fuel r c rest rout dd :
  clean_loop (S fuel) r (c :: rest) rout dd =
  if Ascii.eqb c slash then clean_loop fuel r rest rout dd
  else if Ascii.eqb c dot && sep_or_end rest then clean_loop fuel r rest rout dd
  else if Ascii.eqb c dot && dot_sep_or_end rest then
    if dd <? List.length rout then clean_loop fuel r (tl rest) (backtrack dd rout) dd
    else if negb r then
      clean_loop fuel r (tl rest) (dot :: dot :: (if 0 <? List.length rout then slash :: rout else rout))
        (List.length (dot :: dot :: (if 0 <? List.length rout then slash :: rout else rout)))
    else clean_loop fuel r (tl rest) rout dd
  else
    clean_loop fuel r (snd (span_elem (c :: rest)))
      (rev (fst (span_elem (c :: rest)))
       ++ (if (r && negb (List.length rout =? 1)) || (negb r && negb (List.length rout =? 0))
           then slash :: rout else rout)) dd.
Proof.
  cbn [clean_loop]. destruct (Ascii.eqb c slash); [reflexivity|].
  destruct (Ascii.eqb c dot && sep_or_end rest); [reflexivity|].
  destruct (Ascii.eqb c dot && dot_sep_or_end rest); [reflexivity|].
  destruct (span_elem (c :: rest)); reflexivity.
Qed.

Lemma sep_app rest ys : sep_or_end (rest ++ slash :: ys) = sep_or_end rest.
Proof. destruct rest; reflexivity. Qed.

Lemma dot_sep_app rest ys : dot_sep_or_end (rest ++ slash :: ys) = dot_sep_or_end rest.
Proof.
  destruct rest as [|d rest]; [reflexivity|].
  change (dot_sep_or_end ((d :: rest) ++ slash :: ys))
    with (Ascii.eqb d dot && sep_or_end (rest ++ slash :: ys)).
  rewrite sep_app. reflexivity.
Qed.

Lemma span_app l ys :
  span_elem (l ++ slash :: ys) = (fst (span_elem l), snd (span_elem l) ++ slash :: ys).
Proof.
  induction l as [|c l IH]; [reflexivity|].
  simpl. destruct (Ascii.eqb c slash); [reflexivity|].
  rewrite IH. destruct (span_elem l); reflexivity.
Qed.

Lemma span_len c rest :
  Ascii.eqb c slash = false ->
  List.length (snd (span_elem (c :: rest))) < S (List.length rest).
Proof.
  intro Hs. simpl. rewrite Hs. destruct (span_elem rest) as [n r] eqn:Hsp.
  destruct (span_elem_spec _ _ _ Hsp) as (Hl & _ & _).
  simpl. rewrite Hl, length_app. lia.
Qed.

(** Enough fuel: one more unit of fuel per character is never needed. *)
Lemma loop_fuel fuel m r path rout dd :
  List.length path <= fuel -> clean_loop (fuel + m) r path rout dd = clean_loop fuel r path rout dd.
Proof.
  revert path rout dd. induction fuel as [|fuel IH]; intros path rout dd Hl.
  - destruct path; [rewrite !loop_nil; reflexivity|simpl in Hl; lia].
  - destruct path as [|c rest]; [rewrite !loop_nil; reflexivity|].
    simpl in Hl. rewrite Nat.add_succ_l, !loop_step.
    destruct (Ascii.eqb c slash) eqn:Hs; [apply IH; lia|].
    destruct (Ascii.eqb c dot && sep_or_end rest); [apply IH; lia|].
    destruct (Ascii.eqb c dot && dot_sep_or_end rest).
    + assert (List.length (tl rest) <= fuel) by (destruct rest; simpl in *; lia).
      destruct (dd <? List.length rout); [apply IH; assumption|].
      destruct (negb r); apply IH; assumption.
    + apply IH. pose proof (span_len c rest Hs). lia.
Qed.

(** Cleaning a path that continues after a slash resumes from the state left
    by its first part. *)
Lemma loop_split fuel f2 r xs ys rout dd :
  List.length xs <= fuel -> S (List.length ys) <= f2 ->
  clean_loop (fuel + f2) r (xs ++ slash :: ys) rout dd
  = clean_loop f2 r (slash :: ys) (fst (clean_loop fuel r xs rout dd))
      (snd (clean_loop fuel r xs rout dd)).
Proof.
  revert xs rout dd. induction fuel as [|fuel IH]; intros xs rout dd Hx Hy.
  - destruct xs; [reflexivity|simpl in Hx; lia].
  - destruct xs as [|c rest].
    + rewrite loop_nil. simpl fst. simpl snd. rewrite app_nil_l, Nat.add_comm.
      apply loop_fuel. simpl. lia.
    + simpl in Hx. rewrite <- app_comm_cons, Nat.add_succ_l, !loop_step.
      rewrite sep_app, dot_sep_app.
      change (span_elem (c :: rest ++ slash :: ys)) with (span_elem ((c :: rest) ++ slash :: ys)).
      rewrite span_app.
      destruct (Ascii.eqb c slash) eqn:Hs; [apply IH; lia|].
      destruct (Ascii.eqb c dot && sep_or_end rest); [apply IH; lia|].
      destruct (Ascii.eqb c dot && dot_sep_or_end rest) eqn:Hdd.
      * destruct rest as [|d rest'].
        { rewrite andb_comm in Hdd. discriminate. }
        simpl in Hx. cbn [tl app].
        destruct (dd <? List.length rout); [apply IH; lia|].
        destruct (negb r); apply IH; lia.
      * cbn [fst snd]. apply IH; [|exact Hy].
        pose proof (span_len c rest Hs). lia.
Qed.

Lemma span_noslash e rest :
  ~ In slash e -> sep_or_end rest = true -> span_elem (e ++ rest) = (e, rest).
Proof.
  intros He Hr. induction e as [|c e IH].
  - destruct rest as [|d rest]; [reflexivity|].
    simpl in Hr. apply eqb_slash in Hr. subst d. reflexivity.
  - simpl. destruct (Ascii.eqb c slash) eqn:Hc.
    + apply eqb_slash in Hc. subst c. exfalso. apply He. left. reflexivity.
    + rewrite IH; [reflexivity|]. intro H. apply He. right. exact H.
Qed.

Lemma noslash_eqb c e : ~ In slash e -> In c e -> Ascii.eqb c slash = false.
Proof.
  intros He Hc. destruct (Ascii.eqb c slash) eqn:E; [|reflexivity].
  apply eqb_slash in E. subst c. contradiction.
Qed.

(** A plain element followed by a separator or the end is appended as it is. *)
Lemma step_name fuel r k E e rest :
  (r = true -> k = 0) -> forallb is_plain_elem E = true -> is_plain_elem e = true ->
  sep_or_end rest = true ->
  clean_loop (S fuel) r (e ++ rest) (rev (render r (repeat [dot; dot] k ++ E))) (dd_of r k)
  = clean_loop fuel r rest (rev (render r (repeat [dot; dot] k ++ E ++ [e]))) (dd_of r k).
Proof.
  intros Hk HE Hp Hr.
  pose proof Hp as (Hne & Hsl & Hd1 & Hd2) %plain_elem_spec.
  destruct e as [|c e']; [contradiction|].
  rewrite <- app_comm_cons, loop_step.
  rewrite (noslash_eqb c (c :: e') Hsl (or_introl eq_refl)).
  assert (Hd : (Ascii.eqb c dot && sep_or_end (e' ++ rest)) = false).
  { destruct (Ascii.eqb c dot) eqn:Hc; [|reflexivity]. apply Ascii.eqb_eq in Hc. subst c.
    destruct e' as [|d e'']; [contradiction|]. simpl.
    exact (noslash_eqb d _ Hsl (or_intror (or_introl eq_refl))). }
  assert (Hdd : (Ascii.eqb c dot && dot_sep_or_end (e' ++ rest)) = false).
  { destruct (Ascii.eqb c dot) eqn:Hc; [|reflexivity]. apply Ascii.eqb_eq in Hc. subst c.
    destruct e' as [|d e'']; [contradiction|]. simpl andb.
    change (dot_sep_or_end ((d :: e'') ++ rest)) with (Ascii.eqb d dot && sep_or_end (e'' ++ rest)).
    destruct (Ascii.eqb d dot) eqn:Hdo; [|reflexivity]. apply Ascii.eqb_eq in Hdo. subst d.
    destruct e'' as [|x e3]; [contradiction|]. simpl.
    exact (noslash_eqb x _ Hsl (or_intror (or_intror (or_introl eq_refl)))). }
  rewrite Hd, Hdd.
  change (c :: e' ++ rest) with ((c :: e') ++ rest).
  rewrite (span_noslash (c :: e') rest Hsl Hr). cbn [fst snd].
  rewrite push_name by assumption. reflexivity.
Qed.

(** On a relative path with nothing left to pop, ".." is appended. *)
Lemma step_dotdot fuel k rest :
  sep_or_end rest = true ->
  clean_loop (S fuel) false (dot :: dot :: rest) (rev (render false (repeat [dot; dot] k ++ [])))
    (dd_of false k)
  = clean_loop fuel false rest (rev (render false (repeat [dot; dot] (S k) ++ [])))
      (dd_of false (S k)).
Proof.
  intro Hr. rewrite loop_step.
  change (Ascii.eqb dot slash) with false.
  change (Ascii.eqb dot dot && sep_or_end (dot :: rest)) with false.
  change (Ascii.eqb dot dot && dot_sep_or_end (dot :: rest)) with (sep_or_end rest).
  rewrite Hr. cbv beta iota.
  destruct (dd_of false k <? List.length (rev (render false (repeat [dot; dot] k ++ [])))) eqn:Hl.
  - apply lt_iff in Hl; [contradiction|discriminate|reflexivity].
  - destruct (push_dotdot k) as [H1 H2]. cbv zeta in H1, H2.
    cbn [negb tl]. rewrite H2, H1. reflexivity.
Qed.

Fixpoint seps (Q : list (list ascii)) : list ascii :=
  match Q with [] => [] | q :: Q => slash :: q ++ seps Q end.

Lemma seps_app A B : seps (A ++ B) = seps A ++ seps B.
Proof.
  induction A as [|a A IH]; [reflexivity|]. simpl. rewrite IH, app_assoc. reflexivity.
Qed.

Lemma join_seps q Q : join_elems (q :: Q) = q ++ seps Q.
Proof.
  revert q. induction Q as [|q' Q IH]; intro q.
  - simpl. rewrite app_nil_r. reflexivity.
  - change (join_elems (q :: q' :: Q)) with (q ++ slash :: join_elems (q' :: Q)).
    rewrite IH. reflexivity.
Qed.

Lemma seps_len Q : (forall e, In e Q -> e <> []) -> 2 * List.length Q <= List.length (seps Q).
Proof.
  induction Q as [|q Q IH]; intro H; [simpl; lia|].
  simpl. rewrite length_app.
  assert (q <> []) by (apply H; left; reflexivity).
  assert (2 * List.length Q <= List.length (seps Q)) by (apply IH; intros e He; apply H; right; exact He).
  destruct q; [contradiction|]. simpl. lia.
Qed.

Lemma sep_seps Q : sep_or_end (seps Q) = true.
Proof. destruct Q; reflexivity. Qed.

Lemma loop_names Q fuel r k E :
  (r = true -> k = 0) -> forallb is_plain_elem E = true -> forallb is_plain_elem Q = true ->
  clean_loop (2 * List.length Q + fuel) r (seps Q)
    (rev (render r (repeat [dot; dot] k ++ E))) (dd_of r k)
  = (rev (render r (repeat [dot; dot] k ++ E ++ Q)), dd_of r k).
Proof.
  revert E. induction Q as [|q Q IH]; intros E Hk HE HQ.
  - rewrite app_nil_r. apply loop_nil.
  - simpl in HQ. apply andb_true_iff in HQ as [Hq HQ].
    replace (2 * List.length (q :: Q) + fuel) with (S (S (2 * List.length Q + fuel))) by (simpl; lia).
    cbn [seps]. rewrite loop_slash, step_name by (assumption || apply sep_seps).
    rewrite IH; [|assumption| rewrite forallb_app, HE; simpl; rewrite Hq; reflexivity|assumption].
    rewrite <- app_assoc. reflexivity.
Qed.

Lemma loop_dotdots j fuel k rest :
  sep_or_end rest = true ->
  clean_loop (2 * j + fuel) false (seps (repeat [dot; dot] j) ++ rest)
    (rev (render false (repeat [dot; dot] k ++ []))) (dd_of false k)
  = clean_loop fuel false rest (rev (render false (repeat [dot; dot] (k + j) ++ [])))
      (dd_of false (k + j)).
Proof.
  revert k. induction j as [|j IH]; intros k Hr.
  - rewrite Nat.add_0_r. reflexivity.
  - replace (2 * S j + fuel) with (S (S (2 * j + fuel))) by lia.
    cbn [repeat seps app]. rewrite loop_slash, step_dotdot.
    + rewrite IH by exact Hr. rewrite Nat.add_succ_r. reflexivity.
    + destruct j; [exact Hr|reflexivity].
Qed.

Lemma loop_seps_all r j E fuel :
  (r = true -> j = 0) -> forallb is_plain_elem E = true ->
  List.length (seps (repeat [dot; dot] j ++ E)) <= fuel ->
  clean_loop fuel r (seps (repeat [dot; dot] j ++ E)) (rev (render r [])) (dd_of r 0)
  = (rev (render r (repeat [dot; dot] j ++ E)), dd_of r j).
Proof.
  intros Hj HE Hf.
  assert (Hall : forall e, In e (repeat [dot; dot] j ++ E) -> e <> [])
    by (intros e; apply elems_nonempty, HE).
  pose proof (seps_len _ Hall) as Hl. rewrite length_app, repeat_length in Hl.
  rewrite seps_app.
  destruct r.
  - rewrite (Hj eq_refl) in *. cbn [repeat seps app] in *.
    replace fuel with (2 * List.length E + (fuel - 2 * List.length E)) by lia.
    exact (loop_names E _ true 0 [] (fun _ => eq_refl) eq_refl HE).
  - replace fuel with (2 * j + (2 * List.length E + (fuel - 2 * j - 2 * List.length E))) by lia.
    etransitivity; [exact (loop_dotdots j _ 0 (seps E) (sep_seps E))|].
    exact (loop_names E _ false j [] (fun H => match H with end) eq_refl HE).
Qed.

Lemma seps_join P : P <> [] -> seps P = slash :: join_elems P.
Proof. intro H. destruct P as [|p P]; [contradiction|]. rewrite join_seps. reflexivity. Qed.

Lemma elems_noslash k E e :
  forallb is_plain_elem E = true -> In e (repeat [dot; dot] k ++ E) -> e <> [] /\ ~ In slash e.
Proof.
  intros H He. apply in_app_or in He. destruct He as [He|He].
  - apply repeat_spec in He. subst. split; [discriminate|]. intros [E1|[E1|[]]]; discriminate.
  - rewrite forallb_forall in H. apply H, plain_elem_spec in He. tauto.
Qed.

Lemma join_head P :
  P <> [] -> (forall e, In e P -> e <> [] /\ ~ In slash e) ->
  exists c rest, join_elems P = c :: rest /\ Ascii.eqb c slash = false.
Proof.
  intros HP H. destruct P as [|p P']; [contradiction|]. rewrite join_seps.
  destruct (H p (or_introl eq_refl)) as [Hp Hs].
  destruct p as [|c p']; [contradiction|].
  exists c, (p' ++ seps P'). split; [reflexivity|].
  exact (noslash_eqb c _ Hs (or_introl eq_refl)).
Qed.

Lemma match_rev l :
  l <> [] -> match rev l with [] => "."%string | _ => string_of_list_ascii (rev (rev l)) end
             = string_of_list_ascii l.
Proof.
  intro H. rewrite rev_involutive. destruct (rev l) eqn:E; [|reflexivity].
  apply (f_equal (@rev _)) in E. rewrite rev_involutive in E. contradiction.
Qed.

(** A path in cleaned form is left as it is by Clean. *)
Lemma clean_rendered r k E :
  (r = true -> k = 0) -> forallb is_plain_elem E = true ->
  (r = false -> repeat [dot; dot] k ++ E <> []) ->
  Clean (string_of_list_ascii (render r (repeat [dot; dot] k ++ E)))
  = string_of_list_ascii (render r (repeat [dot; dot] k ++ E)).
Proof.
  intros Hk HE Hne.
  assert (Hrun : forall fuel, List.length (seps (repeat [dot; dot] k ++ E)) <= fuel ->
     clean_loop fuel r (seps (repeat [dot; dot] k ++ E)) (rev (render r [])) (dd_of r 0)
     = (rev (render r (repeat [dot; dot] k ++ E)), dd_of r k))
    by (intros; apply loop_seps_all; assumption).
  unfold Clean. rewrite list_ascii_of_string_of_list_ascii.
  destruct r.
  - rewrite (Hk eq_refl) in *. change (repeat [dot; dot] 0 ++ E) with E in *.
    unfold render. cbv beta iota zeta. change (Ascii.eqb slash slash) with true. cbv beta iota.
    destruct E as [|e E']; [reflexivity|].
    rewrite <- loop_slash, <- seps_join by discriminate.
    assert (Hr := Hrun (S (List.length (seps (e :: E')))) ltac:(lia)).
    change (rev (render true [])) with [slash] in Hr. change (dd_of true 0) with 1 in Hr.
    rewrite Hr. cbn [fst]. unfold render.
    rewrite seps_join by discriminate. apply match_rev. discriminate.
  - assert (HP : repeat [dot; dot] k ++ E <> []) by (apply Hne; reflexivity).
    destruct (join_head _ HP (fun e => elems_noslash k E e HE)) as (c & rest & Hj & Hc).
    unfold render. rewrite Hj. cbv beta iota zeta. rewrite Hc. cbv beta iota.
    rewrite <- loop_slash, <- Hj, <- seps_join by exact HP.
    assert (Hr := Hrun (S (List.length (join_elems (repeat [dot; dot] k ++ E))))
                  ltac:(rewrite seps_join by exact HP; simpl; lia)).
    change (rev (render false [])) with (@nil ascii) in Hr. change (dd_of false 0) with 0 in Hr.
    rewrite Hr. cbn [fst]. unfold render.
    apply match_rev. rewrite Hj. discriminate.
Qed.

(** The shape of a cleaned path: "." (from a relative path), or the
    elements joined by single slashes, after a slash when the path is
    rooted; the elements are ".." only at the start of a relative path,
    and otherwise neither empty, nor ".", nor "..". *)
Lemma clean_shape p :
  (Clean p = "."%string /\ starts_with_slash p = false) \/
  exists k E,
    list_ascii_of_string (Clean p) = render (starts_with_slash p) (repeat [dot; dot] k ++ E)
    /\ forallb is_plain_elem E = true
    /\ (starts_with_slash p = true -> k = 0)
    /\ (starts_with_slash p = false -> repeat [dot; dot] k ++ E <> []).
Proof.
  unfold Clean, starts_with_slash.
  destruct (list_ascii_of_string p) as [|c rest]; [left; split; reflexivity|].
  cbv zeta.
  assert (Hi : Inv (Ascii.eqb c slash)
                 (if Ascii.eqb c slash then [slash] else [], if Ascii.eqb c slash then 1 else 0)).
  { exists 0, []. destruct (Ascii.eqb c slash); repeat split; reflexivity. }
  destruct (loop_inv (List.length (c :: rest)) _ (if Ascii.eqb c slash then rest else c :: rest)
              _ _ Hi) as (k & E & Hf & Hk & _ & HE).
  rewrite Hf. destruct (rev (render (Ascii.eqb c slash) (repeat [dot; dot] k ++ E))) as [|x out] eqn:Hr.
  - left. split; [reflexivity|]. destruct (Ascii.eqb c slash); [|reflexivity].
    apply (f_equal (@List.length _)) in Hr. rewrite length_rev in Hr. discriminate.
  - right. exists k, E. rewrite list_ascii_of_string_of_list_ascii, <- Hr, rev_involutive.
    split; [reflexivity|]. split; [exact HE|]. split; [exact Hk|].
    intros Hr0 Hnil. rewrite Hr0, Hnil in Hr. discriminate.
Qed.

Lemma clean_idem p : Clean (Clean p) = Clean p.
Proof.
  destruct (clean_shape p) as [[H _]|(k & E & H1 & H2 & H3 & H4)].
  - rewrite H. reflexivity.
  - rewrite <- (string_of_list_ascii_of_string (Clean p)), H1.
    apply clean_rendered; assumption.
Qed.

Lemma clean_rooted p : starts_with_slash (Clean p) = starts_with_slash p.
Proof.
  destruct (clean_shape p) as [[H1 H2]|(k & E & H1 & H2 & H3 & H4)].
  - rewrite H1, H2. reflexivity.
  - unfold starts_with_slash at 1. rewrite H1.
    destruct (starts_with_slash p) eqn:Hs; [reflexivity|].
    destruct (join_head _ (H4 eq_refl) (fun e He => elems_noslash k E e H2 He))
      as (c & rest & Hj & Hc).
    unfold render. rewrite Hj. exact Hc.
Qed.

Lemma list_ascii_app s1 s2 :
  list_ascii_of_string (String.append s1 s2) = list_ascii_of_string s1 ++ list_ascii_of_string s2.
Proof. induction s1 as [|a s1 IH]; [reflexivity|]. simpl. rewrite IH. reflexivity. Qed.

Lemma string_of_app l1 l2 :
  string_of_list_ascii (l1 ++ l2) = String.append (string_of_list_ascii l1) (string_of_list_ascii l2).
Proof. induction l1 as [|a l1 IH]; [reflexivity|]. simpl. rewrite IH. reflexivity. Qed.

(** Cleaning "dir/name" runs the loop over dir, then appends name. *)
Lemma loop_then_name r path0 ln rout dd fuel :
  Inv r (rout, dd) -> is_plain_elem ln = true ->
  List.length path0 + S (List.length ln) <= fuel ->
  exists k E,
    clean_loop (List.length path0) r path0 rout dd
      = (rev (render r (repeat [dot; dot] k ++ E)), dd_of r k)
    /\ (r = true -> k = 0) /\ forallb is_plain_elem E = true
    /\ clean_loop fuel r (path0 ++ slash :: ln) rout dd
       = (rev (render r (repeat [dot; dot] k ++ E ++ [ln])), dd_of r k).
Proof.
  intros H Hn Hf.
  destruct (loop_inv (List.length path0) r path0 rout dd H) as (k & E & Hfst & Hk & Hsnd & HE).
  exists k, E.
  assert (Hst : clean_loop (List.length path0) r path0 rout dd
                = (rev (render r (repeat [dot; dot] k ++ E)), dd_of r k))
    by (rewrite (surjective_pairing (clean_loop _ _ _ _ _)), Hfst, Hsnd; reflexivity).
  split; [exact Hst|]. split; [exact Hk|]. split; [exact HE|].
  assert (Hne : ln <> []) by (apply plain_elem_spec in Hn; tauto).
  destruct ln as [|x ln']; [contradiction|]. simpl in Hf.
  replace fuel with (List.length path0 + S (S (fuel - List.length path0 - 2))) by lia.
  rewrite loop_split by (simpl; lia). rewrite Hst. cbn [fst snd].
  rewrite loop_slash, <- (app_nil_r (x :: ln')) at 1.
  rewrite step_name by (assumption || reflexivity). apply loop_nil.
Qed.

Lemma elems_props k E e :
  forallb is_plain_elem E = true -> In e (repeat [dot; dot] k ++ E) ->
  e <> [] /\ ~ In slash e /\ e <> [dot].
Proof.
  intros H He. apply in_app_or in He. destruct He as [He|He].
  - apply repeat_spec in He. subst. split; [discriminate|]. split; [|discriminate].
    intros [E1|[E1|[]]]; discriminate.
  - rewrite forallb_forall in H. apply H, plain_elem_spec in He. tauto.
Qed.

Lemma render_not_dot r k E :
  forallb is_plain_elem E = true -> render r (repeat [dot; dot] k ++ E) <> [dot].
Proof.
  intros HE Hr. destruct r; [discriminate|].
  unfold render in Hr.
  destruct (repeat [dot; dot] k ++ E) as [|p P'] eqn:HP; [discriminate|].
  assert (Hp : p <> [] /\ ~ In slash p /\ p <> [dot])
    by (apply (elems_props k E p HE); rewrite HP; left; reflexivity).
  rewrite join_seps in Hr. apply app_eq_unit in Hr as [[-> _]|[-> _]]; tauto.
Qed.

Lemma render_not_root r k E :
  forallb is_plain_elem E = true -> repeat [dot; dot] k ++ E <> [] ->
  render r (repeat [dot; dot] k ++ E) <> [slash].
Proof.
  intros HE HP Hr.
  destruct r; unfold render in Hr.
  - injection Hr as Hj. apply join_nil in Hj; [contradiction|].
    intros e He. exact (elems_nonempty k E e HE He).
  - destruct (join_head _ HP (fun e He => let (a, b) := elems_noslash k E e HE He in conj a b))
      as (c & rest & Hj & Hc).
    rewrite Hj in Hr. injection Hr as -> _. discriminate.
Qed.

Lemma string_eqb_list l s :
  String.eqb (string_of_list_ascii l) s = true -> l = list_ascii_of_string s.
Proof.
  intro H. apply String.eqb_eq in H. rewrite <- H, list_ascii_of_string_of_list_ascii. reflexivity.
Qed.

Lemma join_finish r k E ln :
  (r = true -> k = 0) -> forallb is_plain_elem E = true -> is_plain_elem ln = true ->
  match rev (render r (repeat [dot; dot] k ++ E ++ [ln])) with
  | [] => "."%string
  | _ => string_of_list_ascii (rev (rev (render r (repeat [dot; dot] k ++ E ++ [ln]))))
  end
  = (let cr := match rev (render r (repeat [dot; dot] k ++ E)) with
               | [] => "."%string
               | _ => string_of_list_ascii (rev (rev (render r (repeat [dot; dot] k ++ E))))
               end in
     if String.eqb cr "." then string_of_list_ascii ln
     else if String.eqb cr "/" then String.append "/" (string_of_list_ascii ln)
     else String.append cr (String.append "/" (string_of_list_ascii ln))).
Proof.
  intros Hk HE Hn.
  assert (Hne : ln <> []) by (apply plain_elem_spec in Hn; tauto).
  rewrite match_rev.
  2:{ destruct r; unfold render; [discriminate|]. rewrite app_assoc.
      intro Hj. apply join_nil in Hj; [destruct (repeat [dot; dot] k ++ E); discriminate|].
      intros e He. apply in_app_or in He as [He|[<-|[]]]; [|exact Hne].
      exact (elems_nonempty k E e HE He). }
  cbv zeta.
  destruct (repeat [dot; dot] k ++ E) as [|p P] eqn:HP.
  - apply app_eq_nil in HP as [Hrep ->]. destruct k; [|discriminate].
    destruct r; reflexivity.
  - rewrite <- HP. rewrite match_rev.
    2:{ destruct r; unfold render; [discriminate|]. intro Hj. apply join_nil in Hj.
        - rewrite HP in Hj. discriminate.
        - intros e He. exact (elems_nonempty k E e HE He). }
    destruct (String.eqb (string_of_list_ascii (render r (repeat [dot; dot] k ++ E))) ".") eqn:H1.
    { apply string_eqb_list in H1. exfalso. exact (render_not_dot r k E HE H1). }
    destruct (String.eqb (string_of_list_ascii (render r (repeat [dot; dot] k ++ E))) "/") eqn:H2.
    { apply string_eqb_list in H2. exfalso.
      exact (render_not_root r k E HE ltac:(rewrite HP; discriminate) H2). }
    rewrite app_assoc, render_snoc by (rewrite HP; discriminate).
    rewrite string_of_app. reflexivity.
Qed.

Lemma join_dir_name root name :
  is_plain_elem (list_ascii_of_string name) = true ->
  Join [root; name]
  = if String.eqb (Clean root) "." then name
    else if String.eqb (Clean root) "/" then String.append "/" name
    else String.append (Clean root) (String.append "/" name).
Proof.
  intro Hn.
  assert (Hname : Clean name = name).
  { pose proof (clean_rendered false 0 [list_ascii_of_string name] (fun _ => eq_refl)
                  ltac:(simpl; rewrite Hn; reflexivity) (fun _ => ltac:(discriminate))) as H.
    change (render false (repeat [dot; dot] 0 ++ [list_ascii_of_string name]))
      with (list_ascii_of_string name) in H.
    rewrite string_of_list_ascii_of_string in H. exact H. }
  assert (Hne : name <> ""%string)
    by (intros ->; discriminate).
  destruct root as [|a s].
  - cbn [Join]. change (String.eqb "" "") with true. cbv beta iota.
    cbn [Join]. destruct (String.eqb name "") eqn:E; [apply String.eqb_eq in E; contradiction|].
    change (String.concat "/" [name]) with name. rewrite Hname. reflexivity.
  - cbn [Join]. change (String.eqb (String a s) "") with false. cbv beta iota.
    change (String.concat "/" [String a s; name]) with (String.append (String a s) (String.append "/" name)).
    unfold Clean. rewrite !list_ascii_app. change (list_ascii_of_string "/") with [slash].
    change (list_ascii_of_string (String a s)) with (a :: list_ascii_of_string s).
    cbn [app]. cbv beta iota zeta.
    set (r := Ascii.eqb a slash).
    set (ln := list_ascii_of_string name) in *.
    set (path0 := if r then list_ascii_of_string s else a :: list_ascii_of_string s).
    assert (Hi : Inv r (if r then [slash] else [], if r then 1 else 0)).
    { exists 0, []. destruct r; repeat split; reflexivity. }
    destruct (loop_then_name r path0 ln _ _ (List.length ((a :: list_ascii_of_string s) ++ slash :: ln))
                Hi Hn ltac:(unfold path0; destruct r; simpl; rewrite length_app; simpl; lia))
      as (k & E & Hroot & Hk & HE & Hall).
    replace (if r then list_ascii_of_string s ++ slash :: ln else a :: list_ascii_of_string s ++ slash :: ln)
      with (path0 ++ slash :: ln) by (unfold path0; destruct r; reflexivity).
    change (a :: list_ascii_of_string s ++ slash :: ln) with ((a :: list_ascii_of_string s) ++ slash :: ln).
    rewrite Hall. cbn [fst].
    replace (clean_loop (List.length (a :: list_ascii_of_string s)) r path0
               (if r then [slash] else []) (if r then 1 else 0))
      with (clean_loop (List.length path0) r path0 (if r then [slash] else []) (if r then 1 else 0)).
    2:{ replace (List.length (a :: list_ascii_of_string s))
          with (List.length path0 + (if r then 1 else 0))
          by (unfold path0; destruct r; simpl; lia).
        symmetry. apply loop_fuel. reflexivity. }
    rewrite Hroot. cbn [fst].
    rewrite (join_finish r k E ln Hk HE Hn). cbv zeta.
    unfold ln. rewrite string_of_list_ascii_of_string. reflexivity.
Qed.

End GoPathFacts.

(* ------------------------------------------------------------------ *)
(** ** main and the running process: further facts *)

Module MainFacts.
Import Collector Mailer Events MailerImpl Main Process ProcessFacts.


Lemma fires_in l : 0 < fires l -> In EvCronFire l.
Proof.
  unfold fires. induction l as [|a l IH]; simpl; [lia|].
  destruct (is_fire a) eqn:Ea; simpl; intro H.
  - left. destruct a; try discriminate Ea. reflexivity.
  - right. exact (IH H).
Qed.

(** A run that calls Job.Run comes from a complete start-up. *)
Lemma tick_needs_startup env c0 tr p :
  exec (mail_config env) (init env c0) tr p -> In EvJobTick tr ->
  load_err env = None /\ open_log_err env = None /\ parse_level_err env = None
  /\ open_sql_err env = None /\ smtp_reachable env = true.
Proof.
  intros He Hin.
  destruct (load_err env) eqn:H1, (open_log_err env) eqn:H2, (parse_level_err env) eqn:H3,
    (open_sql_err env) eqn:H4, (smtp_reachable env) eqn:H5;
    try (repeat split; reflexivity);
    exfalso; apply (never_started_no_job env c0 tr p); try assumption;
    apply main_no_cron; intros (? & ? & ? & ? & ?); congruence.
Qed.

End MainFacts.

(* ------------------------------------------------------------------ *)
(** ** Further properties of main and of the process *)

Module MainExtras.
Import Collector Mailer Events MailerImpl Main Process ProcessFacts MainFacts.



(** Job.Run runs only once the service is up, and the scheduler launches
    it only while it runs: in every run of the process, each Job.Run
    starts after collector.OpenSQL, collector.New, m.Run and cron.Start,
    after more launches by the scheduler than earlier starts of Job.Run,
    and every launch before it happened after cron.Start and before
    cj.Stop. *)
Theorem job_tick_window env c0 tr p pre post :
  exec (mail_config env) (init env c0) tr p -> tr = pre ++ EvJobTick :: post ->
  In EvOpenSQL pre /\ In EvNewCollector pre /\ In EvMailerRun pre /\ In EvCronStart pre
  /\ S (ticks pre) <= fires pre
  /\ (forall a b, pre = a ++ EvCronFire :: b -> In EvCronStart a /\ ~ In EvCronStop a).
Proof.
  intros He Ht.
  assert (Hin : In EvJobTick tr) by (rewrite Ht; apply in_or_app; right; left; reflexivity).
  destruct (tick_needs_startup _ _ _ _ He Hin) as (H1 & H2 & H3 & H4 & H5).
  assert (Hm : p_main (init env c0) = main_ok_trace) by exact (main_ok env H1 H2 H3 H4 H5).
  assert (Hmm : forallb is_main (p_main (init env c0)) = true) by (rewrite Hm; reflexivity).
  assert (Hw : forall a b, pre = a ++ EvCronFire :: b ->
            (In EvOpenSQL a /\ In EvNewCollector a /\ In EvMailerRun a /\ In EvCronStart a)
            /\ ~ In EvCronStop a).
  { intros a b Hab.
    assert (Ht' : tr = a ++ EvCronFire :: (b ++ EvJobTick :: post))
      by (rewrite Ht, Hab, <- app_assoc; reflexivity).
    destruct (fire_step _ _ _ _ _ _ He Hmm Ht') as [q [Hq Hc]].
    rewrite (cron_window _ _ _ _ Hm eq_refl Hq) in Hc.
    pose proof (exec_projection _ _ _ _ Hq Hmm) as Hp. rewrite Hm in Hp.
    assert (Hf : forall x, In x (filter is_main a) -> In x a)
      by (intros x Hx; apply filter_In in Hx; tauto).
    destruct (prefix_started _ _ Hp Hc) as (I1 & I2 & I3 & I4).
    split; [repeat split; apply Hf; assumption|].
    intro Hst.
    assert (Hs : In EvCronStop (filter is_main a)) by (apply in_filter_main; [exact Hst | reflexivity]).
    rewrite (prefix_stopped _ _ Hp Hs) in Hc. discriminate. }
  destruct (tick_step _ _ _ _ _ _ He Hmm Ht) as [q [Hq Hl]].
  pose proof (launch_count _ _ _ _ Hq Hmm) as Hc.
  change (launched (p_jobs (init env c0))) with 0 in Hc.
  assert (Hf : S (ticks pre) <= fires pre) by lia.
  destruct (in_split _ _ (fires_in pre ltac:(lia))) as [a [b Hab]].
  destruct (Hw a b Hab) as [(I1 & I2 & I3 & I4) _].
  assert (Ha : forall x, In x a -> In x pre) by (intros x Hx; rewrite Hab; apply in_or_app; left; exact Hx).
  split; [exact (Ha _ I1)|]. split; [exact (Ha _ I2)|]. split; [exact (Ha _ I3)|].
  split; [exact (Ha _ I4)|]. split; [exact Hf|].
  intros a' b' Hab'. destruct (Hw a' b' Hab') as [(_ & _ & _ & J) J']. exact (conj J J').
Qed.

Lemma job_tick_window_witness :
  let pre := firstn 12 main_ok_trace ++ [EvCronFire] in
  In EvOpenSQL pre /\ In EvNewCollector pre /\ In EvMailerRun pre /\ In EvCronStart pre
  /\ S (ticks pre) <= fires pre
  /\ (forall a b, pre = a ++ EvCronFire :: b -> In EvCronStart a /\ ~ In EvCronStop a).
Proof.
  exact (job_tick_window ok_env scenario sample_run sample_end
           (firstn 12 main_ok_trace ++ [EvCronFire])
           ([EvEnqueueCall (Job.render sample_config sample_batch);
             EvQueued (Job.render sample_config sample_batch)] ++ skipn 12 main_ok_trace)
           sample_exec eq_refl).
Defined.

End MainExtras.

(* ------------------------------------------------------------------ *)
(** ** Properties of path.Clean and of the log file path *)

Module PathExtras.
Import GoPath GoPathFacts.

(** The log file main opens is "emed-mailer.log" directly inside the
    cleaned root directory: just "emed-mailer.log" when the root cleans
    to "." (an empty or relative-to-here root), "/emed-mailer.log" when it
    cleans to "/", and the cleaned root, a slash and "emed-mailer.log"
    otherwise. *)
Theorem log_file_path_in_root root :
  log_file_path root
  = if String.eqb (Clean root) "." then log_file_name
    else if String.eqb (Clean root) "/" then String.append "/" log_file_name
    else String.append (Clean root) (String.append "/" log_file_name).
Proof. apply join_dir_name. reflexivity. Qed.

(** path.Clean returns ".", or the elements of the path joined by single
    slashes, after a slash exactly when the path starts with one; ".."
    elements appear only at the start of a relative path, and no element
    is empty, "." or "..", so the result is never empty and ends with a
    slash only when it is "/". *)
Theorem clean_canonical p :
  (Clean p = "."%string /\ starts_with_slash p = false) \/
  exists k E,
    list_ascii_of_string (Clean p) = render (starts_with_slash p) (repeat [dot; dot] k ++ E)
    /\ forallb is_plain_elem E = true
    /\ (starts_with_slash p = true -> k = 0)
    /\ (starts_with_slash p = false -> repeat [dot; dot] k ++ E <> []).
Proof. exact (clean_shape p). Qed.

(** path.Clean is idempotent. *)
Theorem clean_idempotent p : Clean (Clean p) = Clean p.
Proof. exact (clean_idem p). Qed.

(** path.Clean keeps a path rooted or relative: its result starts with a
    slash exactly when its argument does. *)
Theorem clean_keeps_rootedness p : starts_with_slash (Clean p) = starts_with_slash p.
Proof. exact (clean_rooted p). Qed.

End PathExtras.
